(** * generate_m3u.py: the join-and-render pipeline of the IPTV playlist generator

    A shallow embedding of [src/generate_m3u.py].  Python values that the
    script handles are modelled as follows:

    - a [str] is the list of its Unicode code points ([pystr]);
    - a value read from a JSON object whose schema says "string, nullable"
      is a [pyval]: [None] is Python's [None] (JSON null), [Some s] a [str];
    - a JSON object is a record with one field per key the script reads;
      a field is [None] when the key is absent from the object;
    - the two lookup dictionaries are [gmap]s from [pyval] to [pyval];
    - [print], [requests.get] and the file write are events of a trace that
      is threaded through [main] by a small state-and-exception monad. *)

From Stdlib Require Import NArith String Ascii.
From Stdlib Require Import Sorted Permutation.
From stdpp Require Import base option list gmap sorting pretty.

Local Open Scope N_scope.

(** ** Strings *)

Abbreviation codepoint := N (only parsing).
Abbreviation pystr := (list N) (only parsing).
Abbreviation pyval := (option (list N)) (only parsing).

(** Decoder for the literals of this file, which are written in UTF-8 as in
    the source ([# -*- coding: utf-8 -*-] is Python 3's default). *)
Fixpoint utf8_decode (bs : list N) : pystr :=
  match bs with
  | [] => []
  | b0 :: r0 =>
      if b0 <? 128 then b0 :: utf8_decode r0
      else match r0 with
           | [] => []
           | b1 :: r1 =>
               if b0 <? 224 then (b0 mod 32 * 64 + b1 mod 64) :: utf8_decode r1
               else match r1 with
                    | [] => []
                    | b2 :: r2 =>
                        (b0 mod 16 * 4096 + b1 mod 64 * 64 + b2 mod 64)
                          :: utf8_decode r2
                    end
           end
  end.

Definition u (s : string) : pystr :=
  utf8_decode (map N_of_ascii (list_ascii_of_string s)).

Definition LF : codepoint := 10.
Definition QUOTE : codepoint := 34.

(** [sep.join(parts)] *)
Fixpoint str_join (sep : pystr) (parts : list pystr) : pystr :=
  match parts with
  | [] => []
  | [p] => p
  | p :: rest => p ++ sep ++ str_join sep rest
  end.

(** [str(v)], as an f-string field [{v}] renders it. *)
Definition format_value (v : pyval) : pystr :=
  match v with
  | None => u "None"
  | Some s => s
  end.

(** Truth value of a [None]-or-[str] value: [None] and [''] are false. *)
Definition truthy (v : pyval) : bool :=
  match v with
  | Some (_ :: _) => true
  | _ => false
  end.

(** *** [str.capitalize]

    CPython's [do_capitalize] maps the first code point with
    [_PyUnicode_ToTitleFull] and every later one with [lower_ucs4], which
    receives the whole string and the index because of the final-sigma
    rule.  The Unicode tables behind both are not part of this repository,
    they are the two operations of [UnicodeCase]. *)
Class UnicodeCase := {
  to_title_full : codepoint -> pystr;
  lower_ucs4 : pystr -> nat -> codepoint -> pystr
}.

Definition ascii_toupper (c : codepoint) : codepoint :=
  if (97 <=? c) && (c <=? 122) then c - 32 else c.

Definition ascii_tolower (c : codepoint) : codepoint :=
  if (65 <=? c) && (c <=? 90) then c + 32 else c.

(** What the tables say on ASCII, where case mapping is the familiar
    one-to-one shift of letters. *)
Class UnicodeCaseAscii (U : UnicodeCase) : Prop := {
  to_title_full_ascii :
    forall c, c < 128 -> to_title_full c = [ascii_toupper c];
  lower_ucs4_ascii :
    forall s i c, c < 128 -> lower_ucs4 s i c = [ascii_tolower c]
}.

(** The tables cut down to ASCII: every other code point is left alone. *)
Definition ascii_case : UnicodeCase := {|
  to_title_full c := [ascii_toupper c];
  lower_ucs4 _ _ c := [ascii_tolower c]
|}.

Section Capitalize.
Context {U : UnicodeCase}.

Fixpoint lower_from (s : pystr) (i : nat) (rest : pystr) : pystr :=
  match rest with
  | [] => []
  | c :: rest' => lower_ucs4 s i c ++ lower_from s (S i) rest'
  end.

Definition capitalize (s : pystr) : pystr :=
  match s with
  | [] => []
  | c :: rest => to_title_full c ++ lower_from s 1 rest
  end.
End Capitalize.

(** ** The JSON objects of the three datasets *)

(** An entry of [channels.json]; the script reads ['id'], ['name'] and
    ['categories']. *)
Record Channel := {
  c_id : option pyval;
  c_name : option pyval;
  c_categories : option (option (list pystr))
}.

(** An entry of [streams.json]; the script reads ['channel'] and ['url']. *)
Record Stream := {
  s_channel : option pyval;
  s_url : option pyval
}.

(** An entry of [logos.json]; the script reads ['channel'] and ['url']. *)
Record Logo := {
  l_channel : option pyval;
  l_url : option pyval
}.

(** [obj.get(key)]: [None] when the key is absent. *)
Definition get {A} (field : option (option A)) : option A :=
  default None field.

(** [obj.get(key, dflt)] *)
Definition get_or {A} (field : option A) (dflt : A) : A :=
  default dflt field.

(** The dictionaries that [process_data] appends to [processed_channels]. *)
Record JoinedChannel := {
  j_id : pyval;
  j_name : pyval;
  j_logo : pyval;
  j_group : pystr;
  j_url : pyval
}.

(** ** Configuration *)

Definition Nombre_Desconocido : pystr := u "Nombre Desconocido".
Definition Sin_Categoria : pystr := u "Sin Categoría".
Definition OUTPUT_FILE : pystr := u "playlist.m3u8".

Inductive dataset := channels_key | streams_key | logos_key.

Definition API_URLS (k : dataset) : pystr :=
  match k with
  | channels_key => u "https://iptv-org.github.io/api/channels.json"
  | streams_key => u "https://iptv-org.github.io/api/streams.json"
  | logos_key => u "https://iptv-org.github.io/api/logos.json"
  end.

(** ** [process_data] *)

(** One turn of the loop that fills [streams_map] (and of the identical
    loop that fills [logos_map]). *)
Definition map_step (m : gmap pyval pyval) (channel_id url : pyval)
  : gmap pyval pyval :=
  if truthy channel_id && truthy url && bool_decide (m !! channel_id = None)
  then <[channel_id := url]> m
  else m.

Definition streams_map (streams : list Stream) : gmap pyval pyval :=
  foldl (fun m stream => map_step m (get (s_channel stream)) (get (s_url stream)))
        ∅ streams.

Definition logos_map (logos : list Logo) : gmap pyval pyval :=
  foldl (fun m logo => map_step m (get (l_channel logo)) (get (l_url logo)))
        ∅ logos.

(** [d.get(k)] and [d.get(k, dflt)] on a dictionary. *)
Definition dict_get (m : gmap pyval pyval) (k : pyval) : pyval :=
  default None (m !! k).

Definition dict_get_or (m : gmap pyval pyval) (k dflt : pyval) : pyval :=
  default dflt (m !! k).

Section Join.
Context {U : UnicodeCase}.

(** [categories[0] if categories else 'Sin Categoría'] *)
Definition group_title_of (categories : option (list pystr)) : pystr :=
  match categories with
  | Some (first :: _) => first
  | _ => Sin_Categoria
  end.

(** The body of the loop over [channels]: [None] is [continue]. *)
Definition join_channel (sm lm : gmap pyval pyval) (channel : Channel)
  : option JoinedChannel :=
  let channel_id := get (c_id channel) in
  let stream_url := dict_get sm channel_id in
  if negb (truthy stream_url) then None
  else
    let channel_name := get_or (c_name channel) (Some Nombre_Desconocido) in
    let logo_url := dict_get_or lm channel_id (Some []) in
    let categories := get_or (c_categories channel) (Some []) in
    let group_title := group_title_of categories in
    Some {| j_id := channel_id;
            j_name := channel_name;
            j_logo := logo_url;
            j_group := capitalize group_title;
            j_url := stream_url |}.

Definition process_data (channels : list Channel) (streams : list Stream)
    (logos : list Logo) : list JoinedChannel :=
  let sm := streams_map streams in
  let lm := logos_map logos in
  foldl (fun processed_channels channel =>
           match join_channel sm lm channel with
           | None => processed_channels
           | Some joined => processed_channels ++ [joined]
           end)
        [] channels.
End Join.

(** ** [generate_m3u_file] *)

(** [a < b] on [str]: code point by code point, a proper prefix first. *)
Fixpoint str_lt (a b : pystr) : bool :=
  match a, b with
  | _, [] => false
  | [], _ :: _ => true
  | x :: a', y :: b' =>
      if x <? y then true
      else if y <? x then false
      else str_lt a' b'
  end.

(** [a < b] on values: [None] is a [TypeError], Python 3 orders [None]
    with nothing, not even with itself. *)
Definition py_lt (a b : pyval) : option bool :=
  match a, b with
  | Some x, Some y => Some (str_lt x y)
  | _, _ => None
  end.

(** [channels.sort(key=lambda x: x['name'])].  [list.sort] is stable and
    asks only [<] of the keys, so its result is the one of any stable sort;
    it is written here as an insertion sort in the option monad, [None]
    when a comparison raises [TypeError].  A list of fewer than two items is
    sorted without any comparison. *)
Fixpoint insert_by_name (x : JoinedChannel) (l : list JoinedChannel)
  : option (list JoinedChannel) :=
  match l with
  | [] => Some [x]
  | y :: l' =>
      y_first ← py_lt (j_name y) (j_name x);
      if y_first : bool then (y ::.) <$> insert_by_name x l'
      else Some (x :: y :: l')
  end.

Fixpoint sort_by_name (l : list JoinedChannel) : option (list JoinedChannel) :=
  match l with
  | [] => Some []
  | x :: l' => sort_by_name l' ≫= insert_by_name x
  end.

(** The f-string of the [#EXTINF] line. *)
Definition extinf_line (channel : JoinedChannel) : pystr :=
  u "#EXTINF:-1 tvg-id=" ++ [QUOTE] ++ format_value (j_id channel) ++ [QUOTE]
    ++ u " tvg-logo=" ++ [QUOTE] ++ format_value (j_logo channel) ++ [QUOTE]
    ++ u " group-title=" ++ [QUOTE] ++ j_group channel ++ [QUOTE]
    ++ u "," ++ format_value (j_name channel).

Definition EXTM3U : pystr := u "#EXTM3U".

(** ["\n".join(items)]: a [TypeError] ([None]) when an item is not a [str]. *)
Definition join_lines (items : list pyval) : option pystr :=
  str_join [LF] <$> mapM (fun item : pyval => item) items.

(** The list [m3u_content] when the loop over the sorted channels ends. *)
Definition m3u_content (sorted : list JoinedChannel) : list pyval :=
  foldl (fun content channel =>
           (content ++ [Some (extinf_line channel)]) ++ [j_url channel])
        [Some EXTM3U] sorted.

(** [None] stands for the [TypeError] that the sort or the join raises. *)
Definition generate_m3u_file (channels : list JoinedChannel) : option pystr :=
  sorted ← sort_by_name channels;
  join_lines (m3u_content sorted).

(** ** Effects: console, network, file *)

(** The classes of the exceptions that matter to the two [except] clauses.
    [requests.RequestException] derives from [IOError], which is [OSError]. *)
Inductive exn_kind := RequestException | OSError | TypeError | OtherError.

Definition isinstance_RequestException (k : exn_kind) : bool :=
  match k with RequestException => true | _ => false end.

Definition isinstance_IOError (k : exn_kind) : bool :=
  match k with RequestException | OSError => true | _ => false end.

(** An exception object: its class and what [str(e)] gives. *)
Record PyExn := { exn_class : exn_kind; exn_text : pystr }.

(** The functions whose invocation the trace records. *)
Inductive callee := process_data_fn | generate_m3u_file_fn.

Inductive event :=
| Stdout (line : pystr)
| HttpGet (url : pystr)
| Call (f : callee)
| FileOpened (path : pystr)
| FileWritten (path content : pystr).

Inductive outcome (A : Type) :=
| Returned (a : A)
| Uncaught (k : exn_kind).
Arguments Returned {A} a.
Arguments Uncaught {A} k.

(** A computation reads the trace so far and gives its outcome and the
    trace extended by its own events. *)
Definition M (A : Type) : Type := list event -> outcome A * list event.

#[global] Instance M_ret : MRet M := fun A a t => (Returned a, t).

#[global] Instance M_bind : MBind M := fun A B f m t =>
  match m t with
  | (Returned a, t') => f a t'
  | (Uncaught k, t') => (Uncaught k, t')
  end.

Definition emit (e : event) : M unit := fun t => (Returned tt, t ++ [e]).

Definition print (line : pystr) : M unit := emit (Stdout line).

Definition raise {A} (k : exn_kind) : M A := fun t => (Uncaught k, t).

Definition run {A} (m : M A) : outcome A * list event := m [].

(** What the [requests] library does with one GET, seen from the three
    calls in the [try] block of [fetch_json]. *)
Inductive http_reply (A : Type) :=
| GetRaises (e : PyExn)
| StatusRaises (e : PyExn)
| JsonRaises (e : PyExn)
| JsonValue (v : A).
Arguments GetRaises {A} e.
Arguments StatusRaises {A} e.
Arguments JsonRaises {A} e.
Arguments JsonValue {A} v.

(** The exception that leaves the [try] block, if one does. *)
Definition raised_in_try {A} (reply : http_reply A) : option PyExn :=
  match reply with
  | GetRaises e | StatusRaises e | JsonRaises e => Some e
  | JsonValue _ => None
  end.

(** ** [fetch_json] *)

Definition fetch_error_line (url : pystr) (e : PyExn) : pystr :=
  u "Error descargando " ++ url ++ u ": " ++ exn_text e.

(** [except requests.RequestException as e] *)
Definition except_RequestException {A} (url : pystr) (e : PyExn) : M (option A) :=
  if isinstance_RequestException (exn_class e)
  then print (fetch_error_line url e);; mret None
  else raise (exn_class e).

Definition fetch_json {A} (url : pystr) (reply : http_reply A) : M (option A) :=
  emit (HttpGet url);;
  match reply with
  | GetRaises e => except_RequestException url e
  | StatusRaises e => except_RequestException url e
  | JsonRaises e => except_RequestException url e
  | JsonValue v => mret (Some v)
  end.

(** ** [main] *)

(** What happens in the [with open(OUTPUT_FILE, 'w') ...] block: nothing
    is raised, or [open] raises (the file is left as it was), or a later
    step raises, [f.write] or the closing of the file, when [open] has
    already created the file or cut it down to nothing. *)
Inductive write_outcome :=
| WriteOk
| OpenRaises (e : PyExn)
| WriteRaises (e : PyExn).

(** Everything [main] reads from outside the program. *)
Record World := {
  reply_channels : http_reply (list Channel);
  reply_streams : http_reply (list Stream);
  reply_logos : http_reply (list Logo);
  write_result : write_outcome;
  elapsed_seconds : pystr
}.

(** The exception that the [with] block raises, if it raises one. *)
Definition write_raises (w : World) : option PyExn :=
  match write_result w with
  | WriteOk => None
  | OpenRaises e | WriteRaises e => Some e
  end.

(** Truth value of what [fetch_json] returned: [None] and [[]] are false. *)
Definition truthy_data {A} (data : option (list A)) : bool :=
  match data with
  | Some (_ :: _) => true
  | _ => false
  end.

(** Python's [all]. *)
Definition all (bs : list bool) : bool := forallb (fun b => b) bs.

Section Main.
Context {U : UnicodeCase}.

(** The call [process_data(channels_data, streams_data, logos_data)]:
    iterating over [None] is a [TypeError]. *)
Definition call_process_data (channels_data : option (list Channel))
    (streams_data : option (list Stream)) (logos_data : option (list Logo))
  : M (list JoinedChannel) :=
  emit (Call process_data_fn);;
  match channels_data, streams_data, logos_data with
  | Some channels, Some streams, Some logos =>
      mret (process_data channels streams logos)
  | _, _, _ => raise TypeError
  end.

Definition call_generate_m3u_file (channels : list JoinedChannel) : M pystr :=
  emit (Call generate_m3u_file_fn);;
  match generate_m3u_file channels with
  | Some text => mret text
  | None => raise TypeError
  end.

(** [except IOError as e] *)
Definition except_IOError (e : PyExn) : M unit :=
  if isinstance_IOError (exn_class e)
  then print (u "Error al escribir el archivo: " ++ exn_text e)
  else raise (exn_class e).

(** The [try] around the file write.  [open(OUTPUT_FILE, 'w')] creates the
    file or empties it, the event [FileOpened], before anything is written;
    [FileWritten] is the whole text written and the file closed.  A step
    that raises after [open] leaves the file opened and not written. *)
Definition write_output (w : World) (content : pystr) : M unit :=
  match write_result w with
  | WriteOk =>
      emit (FileOpened OUTPUT_FILE);;
      emit (FileWritten OUTPUT_FILE content);;
      print (u "¡Éxito! Archivo guardado como '" ++ OUTPUT_FILE ++ u "'")
  | OpenRaises e => except_IOError e
  | WriteRaises e => emit (FileOpened OUTPUT_FILE);; except_IOError e
  end.

Definition main (w : World) : M unit :=
  print (u "Iniciando la generación de la lista M3U8...");;
  print (u "Descargando datos de la API...");;
  channels_data ← fetch_json (API_URLS channels_key) (reply_channels w);
  streams_data ← fetch_json (API_URLS streams_key) (reply_streams w);
  logos_data ← fetch_json (API_URLS logos_key) (reply_logos w);
  if negb (all [truthy_data channels_data; truthy_data streams_data;
                truthy_data logos_data])
  then
    print (u "Error: No se pudieron descargar todos los archivos de la API. Abortando.")
  else
    print (u "Datos descargados. Procesando y combinando...");;
    processed_channels ← call_process_data channels_data streams_data logos_data;
    if bool_decide (processed_channels = [])
    then print (u "Error: No se pudo procesar ningún canal con stream válido.")
    else
      print (u "Se procesaron " ++ u (pretty (length processed_channels))
               ++ u " canales con streams válidos.");;
      print (u "Generando archivo M3U8...");;
      content ← call_generate_m3u_file processed_channels;
      write_output w content;;
      print (u "Proceso completado en " ++ elapsed_seconds w ++ u " segundos.").
End Main.

(** ** Notions used to state the properties *)

(** The spec's reading of StreamLookup and LogoLookup: the ['url'] of the
    first entry, in input order, whose ['channel'] is [k] and whose ['url']
    is a non-empty string. *)
Definition first_url {E} (channel url : E -> pyval) (k : pystr)
    (entries : list E) : option pyval :=
  url <$> List.find (fun e => bool_decide (channel e = Some k) && truthy (url e))
                    entries.

(** The spec's reading of the group title: only the first character is
    changed. *)
Definition upper_first_only {U : UnicodeCase} (s : pystr) : pystr :=
  match s with
  | [] => []
  | c :: rest => to_title_full c ++ rest
  end.

(** The id a channel entry is looked up with. *)
Definition channel_key (channel : Channel) : pyval := get (c_id channel).

(** A joined record without its logo. *)
Definition without_logo (joined : JoinedChannel)
  : pyval * pyval * pystr * pyval :=
  (j_id joined, j_name joined, j_group joined, j_url joined).

(** [name a <= name b] in the order the sort uses. *)
Definition name_le (a b : JoinedChannel) : Prop :=
  py_lt (j_name b) (j_name a) = Some false.

(** [text.split("\n")] *)
Fixpoint split_lines (text : pystr) : list pystr :=
  match text with
  | [] => [[]]
  | c :: text' =>
      if c =? LF then [] :: split_lines text'
      else match split_lines text' with
           | [] => [[c]]
           | line :: lines => (c :: line) :: lines
           end
  end.

(** The two lines of a record, as strings. *)
Definition entry_lines (channel : JoinedChannel) : list pystr :=
  [extinf_line channel; format_value (j_url channel)].

(** Name and URL are strings, and no field holds a line feed. *)
Definition one_line_fields (channel : JoinedChannel) : Prop :=
  is_Some (j_name channel) /\ is_Some (j_url channel) /\
  (LF ∉ format_value (j_id channel)) /\ (LF ∉ format_value (j_logo channel)) /\
  (LF ∉ j_group channel) /\ (LF ∉ format_value (j_name channel)) /\
  (LF ∉ format_value (j_url channel)).

(** Name and URL are strings. *)
Definition str_fields (channel : JoinedChannel) : Prop :=
  is_Some (j_name channel) /\ is_Some (j_url channel).

(** The trace shows no join, no render and no file, neither written nor
    opened. *)
Definition aborted_before_join (t : list event) : Prop :=
  (Call process_data_fn ∉ t) /\ (Call generate_m3u_file_fn ∉ t) /\
  (forall path content, FileWritten path content ∉ t) /\
  (forall path, FileOpened path ∉ t).

(** [str.capitalize] when the Unicode tables are the ASCII ones. *)
Definition ascii_capitalize (s : pystr) : pystr :=
  match s with
  | [] => []
  | c :: rest => ascii_toupper c :: map ascii_tolower rest
  end.

(** Entries of the three datasets with all their keys present. *)
Definition channel_of (id name : pystr) (categories : list pystr) : Channel :=
  {| c_id := Some (Some id); c_name := Some (Some name);
     c_categories := Some (Some categories) |}.

Definition stream_of (channel url : pystr) : Stream :=
  {| s_channel := Some (Some channel); s_url := Some (Some url) |}.

Definition logo_of (channel url : pystr) : Logo :=
  {| l_channel := Some (Some channel); l_url := Some (Some url) |}.

(** The number of distinct channel ids that are keys of a lookup
    dictionary and occur in the channel list. *)
Definition distinct_joined_ids (sm : gmap pyval pyval)
    (channels : list Channel) : nat :=
  size (dom sm ∩ (list_to_set (channel_key <$> channels) : gset pyval)).

(** Sample inputs. *)
Definition stream_c1 : list Stream := [stream_of (u "c1") (u "http://a")].

Definition twice_c1 : list Channel :=
  [channel_of (u "c1") (u "Uno") []; channel_of (u "c1") (u "Uno bis") []].

Definition empty_name_c1 : Channel := channel_of (u "c1") [] [].

Definition no_id_channel : Channel :=
  {| c_id := None; c_name := Some (Some (u "Sin id"));
     c_categories := None |}.

Definition no_id_stream : Stream :=
  {| s_channel := None; s_url := Some (Some (u "http://a")) |}.

(** The group title the spec describes for a channel entry. *)
Definition claimed_group {U : UnicodeCase} (channel : Channel) : pystr :=
  upper_first_only (group_title_of (get_or (c_categories channel) (Some []))).

(** The channel list of the spec's example, the first category in capitals. *)
Definition shouting_channels : list Channel :=
  [channel_of (u "c1") (u "Beta") [u "NEWS"];
   channel_of (u "c2") (u "Alpha") []].

Definition two_streams : list Stream :=
  [stream_of (u "c1") (u "http://a"); stream_of (u "c2") (u "http://b")].

(** Joined records for the renderer. *)
Definition joined_of (id name url : pystr) : JoinedChannel :=
  {| j_id := Some id; j_name := Some name; j_logo := Some [];
     j_group := u "News"; j_url := Some url |}.

Definition same_name_pair : list JoinedChannel :=
  [joined_of (u "c1") (u "Alpha") (u "http://a");
   joined_of (u "c2") (u "Alpha") (u "http://b")].

Definition alpha_beta : list JoinedChannel :=
  [joined_of (u "c1") (u "Beta") (u "http://a");
   joined_of (u "c2") (u "Alpha") (u "http://b")].

Definition two_line_name : JoinedChannel :=
  joined_of (u "c1") [65; LF; 66] (u "http://a").

(** What a fetch gives its caller when nothing propagates: the parsed body
    or [None]. *)
Definition fetched {A} (reply : http_reply A) : option A :=
  match reply with
  | JsonValue v => Some v
  | _ => None
  end.

(** The events of one fetch when nothing propagates. *)
Definition fetch_events {A} (url : pystr) (reply : http_reply A) : list event :=
  HttpGet url ::
  match raised_in_try reply with
  | Some e => [Stdout (fetch_error_line url e)]
  | None => []
  end.

(** The library signals a failed GET, a failing status and a body that is
    not JSON with subclasses of [requests.RequestException]. *)
Definition raises_only_RequestException {A} (reply : http_reply A) : Prop :=
  forall e, raised_in_try reply = Some e ->
            isinstance_RequestException (exn_class e) = true.

(** A run in which the three downloads succeed and the logos dataset is
    the empty array. *)
Definition empty_logos_world : World :=
  {| reply_channels := JsonValue [channel_of (u "c1") (u "Uno") []];
     reply_streams := JsonValue stream_c1;
     reply_logos := JsonValue [];
     write_result := WriteOk;
     elapsed_seconds := u "0.10" |}.

(** A body that is not JSON, for which [response.json()] raises a
    [ValueError], as it did before requests 2.27: neither a
    [RequestException] nor an [OSError]. *)
Definition value_error_reply : http_reply (list Stream) :=
  JsonRaises {| exn_class := OtherError;
                exn_text := u "Expecting value: line 1 column 1 (char 0)" |}.

(** The URLs of the GETs of a trace, in order. *)
Definition http_gets (t : list event) : list pystr :=
  omap (fun e => match e with HttpGet url => Some url | _ => None end) t.

(** The files of a trace, path and content, in order. *)
Definition files_written (t : list event) : list (pystr * pystr) :=
  omap (fun e => match e with
                 | FileWritten path content => Some (path, content)
                 | _ => None
                 end) t.


(** The two lines [main] prints before the first fetch. *)
Definition starting_lines : list event :=
  [Stdout (u "Iniciando la generación de la lista M3U8...");
   Stdout (u "Descargando datos de la API...")].

(** The events of [main] up to the test of the three fetched values, when
    no fetch lets an exception through. *)
Definition fetching_events (w : World) : list event :=
  starting_lines
    ++ fetch_events (API_URLS channels_key) (reply_channels w)
    ++ fetch_events (API_URLS streams_key) (reply_streams w)
    ++ fetch_events (API_URLS logos_key) (reply_logos w).

(** The events of [main] from [process_data] to the call of
    [generate_m3u_file]. *)
Definition joining_events (processed : list JoinedChannel) : list event :=
  [Stdout (u "Datos descargados. Procesando y combinando...");
   Call process_data_fn;
   Stdout (u "Se procesaron " ++ u (pretty (length processed))
             ++ u " canales con streams válidos.");
   Stdout (u "Generando archivo M3U8...");
   Call generate_m3u_file_fn].

Definition elapsed_line (w : World) : event :=
  Stdout (u "Proceso completado en " ++ elapsed_seconds w ++ u " segundos.").

(** A run in which every download succeeds and the file is written. *)
Definition good_world : World :=
  {| reply_channels := JsonValue [channel_of (u "c1") (u "Uno") []];
     reply_streams := JsonValue stream_c1;
     reply_logos := JsonValue [logo_of (u "c1") (u "http://logo")];
     write_result := WriteOk;
     elapsed_seconds := u "0.10" |}.

(** A run in which the disk is full when the file is written. *)
Definition disk_full_world : World :=
  {| reply_channels := JsonValue [channel_of (u "c1") (u "Uno") []];
     reply_streams := JsonValue stream_c1;
     reply_logos := JsonValue [logo_of (u "c1") (u "http://logo")];
     write_result := WriteRaises {| exn_class := OSError;
                                    exn_text := u "No space left on device" |};
     elapsed_seconds := u "0.10" |}.

(** A run in which no stream belongs to the only channel. *)
Definition no_match_world : World :=
  {| reply_channels := JsonValue [channel_of (u "c2") (u "Dos") []];
     reply_streams := JsonValue stream_c1;
     reply_logos := JsonValue [logo_of (u "c1") (u "http://logo")];
     write_result := WriteOk;
     elapsed_seconds := u "0.10" |}.

(** A run in which the first download ends in an exception that is not a
    [RequestException]. *)
Definition interrupted_world : World :=
  {| reply_channels := GetRaises {| exn_class := OtherError;
                                    exn_text := u "KeyboardInterrupt" |};
     reply_streams := JsonValue stream_c1;
     reply_logos := JsonValue [];
     write_result := WriteOk;
     elapsed_seconds := u "0.10" |}.


(** A run in which the file may not be opened for writing. *)
Definition read_only_world : World :=
  {| reply_channels := JsonValue [channel_of (u "c1") (u "Uno") []];
     reply_streams := JsonValue stream_c1;
     reply_logos := JsonValue [logo_of (u "c1") (u "http://logo")];
     write_result := OpenRaises {| exn_class := OSError;
                                   exn_text := u "Permission denied" |};
     elapsed_seconds := u "0.10" |}.



(** The loop that fills a lookup dictionary, from any starting dictionary
    and for entries of either dataset. *)
Definition build {E} (channel url : E -> pyval) (m : gmap pyval pyval)
    (entries : list E) : gmap pyval pyval :=
  foldl (fun m e => map_step m (channel e) (url e)) m entries.

(** ** The lookup dictionaries *)

Section FirstWins.
Context {E : Type} (channel url : E -> pyval).

Lemma map_step_lookup m c v k :
  map_step m c v !! k =
    match m !! k with
    | Some old => Some old
    | None => if bool_decide (c = k) && truthy c && truthy v then Some v else None
    end.
Proof.
  unfold map_step.
  destruct (truthy c) eqn:Hc, (truthy v) eqn:Hv; simpl;
    try (destruct (m !! k); [done|]; by rewrite ?andb_false_r).
  case_bool_decide as Hfree; simpl.
  - destruct (decide (c = k)) as [->|Hne].
    + rewrite lookup_insert_eq, Hfree. by rewrite bool_decide_eq_true_2.
    + rewrite lookup_insert_ne by done.
      destruct (m !! k); [done|]. by rewrite bool_decide_eq_false_2.
  - destruct (m !! k) eqn:Hk; [done|].
    rewrite bool_decide_eq_false_2; [done|]. congruence.
Qed.

Lemma build_lookup entries : forall m k,
  build channel url m entries !! k =
    match m !! k with
    | Some old => Some old
    | None =>
        url <$> List.find (fun e => bool_decide (channel e = k) && truthy k
                                      && truthy (url e)) entries
    end.
Proof.
  induction entries as [|e entries IH]; intros m k; simpl.
  - by destruct (m !! k).
  - rewrite IH, map_step_lookup.
    destruct (m !! k); [done|].
    case_bool_decide as Heq; simpl; [subst k|done].
    destruct (truthy (channel e)), (truthy (url e)); done.
Qed.

Lemma build_keys_truthy entries : forall m k v,
  (forall k v, m !! k = Some v -> truthy k = true /\ truthy v = true) ->
  build channel url m entries !! k = Some v -> truthy k = true /\ truthy v = true.
Proof.
  induction entries as [|e entries IH]; intros m k v Hm; simpl; [by apply Hm|].
  apply IH. intros k' v'. rewrite map_step_lookup.
  destruct (m !! k') eqn:Hk'; [intros [= <-]; eauto|].
  case_bool_decide; simpl; [subst|done].
  destruct (truthy (channel e)) eqn:?, (truthy (url e)) eqn:?; simpl; try done.
  by intros [= <-].
Qed.

Lemma build_first_url entries k :
  k <> [] ->
  build channel url ∅ entries !! Some k = first_url channel url k entries.
Proof.
  intros Hk. rewrite build_lookup, lookup_empty. unfold first_url.
  f_equal. destruct k as [|c k]; [done|]. clear Hk.
  induction entries as [|e entries IH]; cbn [List.find]; [done|].
  rewrite IH. change (truthy (Some (c :: k))) with true.
  by rewrite andb_true_r.
Qed.
End FirstWins.

Lemma streams_map_build streams :
  streams_map streams =
    build (fun s => get (s_channel s)) (fun s => get (s_url s)) ∅ streams.
Proof. reflexivity. Qed.

Lemma logos_map_build logos :
  logos_map logos =
    build (fun l => get (l_channel l)) (fun l => get (l_url l)) ∅ logos.
Proof. reflexivity. Qed.

Lemma streams_map_truthy streams k v :
  streams_map streams !! k = Some v -> truthy k = true /\ truthy v = true.
Proof.
  rewrite streams_map_build. apply build_keys_truthy.
  intros k' v'. by rewrite lookup_empty.
Qed.

Lemma logos_map_truthy logos k v :
  logos_map logos !! k = Some v -> truthy k = true /\ truthy v = true.
Proof.
  rewrite logos_map_build. apply build_keys_truthy.
  intros k' v'. by rewrite lookup_empty.
Qed.

(** C2: first-write-wins.  For every non-empty channel id [k], the value
    that [streams_map] holds for [k] is the ['url'] of the first stream
    entry, in input order, whose ['channel'] is [k] and whose ['url'] is
    non-empty; later entries for [k] are ignored.  The same holds for
    [logos_map] and the logo entries. *)
Theorem first_write_wins (streams : list Stream) (logos : list Logo) (k : pystr) :
  k <> [] ->
  streams_map streams !! Some k
    = first_url (fun s => get (s_channel s)) (fun s => get (s_url s)) k streams
  /\ logos_map logos !! Some k
    = first_url (fun l => get (l_channel l)) (fun l => get (l_url l)) k logos.
Proof.
  intros Hk. rewrite streams_map_build, logos_map_build.
  split; by apply build_first_url.
Qed.

Lemma first_write_wins_witness :
  streams_map (stream_c1 ++ [stream_of (u "c1") (u "http://ignored")])
    !! Some (u "c1")
    = first_url (fun s => get (s_channel s)) (fun s => get (s_url s)) (u "c1")
        (stream_c1 ++ [stream_of (u "c1") (u "http://ignored")])
  /\ logos_map [logo_of (u "c1") (u "http://logo")] !! Some (u "c1")
    = first_url (fun l => get (l_channel l)) (fun l => get (l_url l)) (u "c1")
        [logo_of (u "c1") (u "http://logo")].
Proof.
  apply (first_write_wins
           (stream_c1 ++ [stream_of (u "c1") (u "http://ignored")])
           [logo_of (u "c1") (u "http://logo")] (u "c1")).
  vm_compute. discriminate.
Defined.

(** ** The join *)

Section JoinFacts.
Context {U : UnicodeCase}.

Lemma process_data_omap channels streams logos :
  process_data channels streams logos =
    omap (join_channel (streams_map streams) (logos_map logos)) channels.
Proof.
  unfold process_data.
  set (f := join_channel _ _).
  enough (forall acc, foldl (fun processed_channels channel =>
             match f channel with
             | None => processed_channels
             | Some joined => processed_channels ++ [joined]
             end) acc channels = acc ++ omap f channels) as Hacc by apply Hacc.
  induction channels as [|channel channels IH]; intros acc; simpl.
  - by rewrite app_nil_r.
  - rewrite IH. destruct (f channel); [|done]. by rewrite <- app_assoc.
Qed.

Lemma join_channel_is_Some streams lm channel :
  is_Some (join_channel (streams_map streams) lm channel)
  <-> channel_key channel ∈ dom (streams_map streams).
Proof.
  rewrite elem_of_dom. unfold join_channel, dict_get, channel_key.
  destruct (streams_map streams !! get (c_id channel)) as [v|] eqn:Hv; simpl.
  - apply streams_map_truthy in Hv as [_ ->]. simpl. split; eauto.
  - split; intros [? ?]; done.
Qed.

Lemma join_channel_None streams lm channel :
  join_channel (streams_map streams) lm channel = None
  <-> channel_key channel ∉ dom (streams_map streams).
Proof.
  rewrite <- join_channel_is_Some, <- eq_None_not_Some. done.
Qed.

Lemma elem_of_process_data joined channels streams logos :
  joined ∈ process_data channels streams logos
  <-> exists channel, channel ∈ channels
      /\ join_channel (streams_map streams) (logos_map logos) channel
         = Some joined.
Proof. rewrite process_data_omap. apply list_elem_of_omap. Qed.

Lemma length_omap_filter {A B} (f : A -> option B) (P : A -> Prop)
    `{forall x, Decision (P x)} (l : list A) :
  (forall x, is_Some (f x) <-> P x) ->
  length (omap f l) = length (filter P l).
Proof.
  intros HP. induction l as [|x l IH]; [done|].
  cbn [omap list_omap]. rewrite filter_cons.
  destruct (f x) eqn:Hx.
  - rewrite decide_True by (apply HP; eauto). simpl. by rewrite IH.
  - rewrite decide_False; [done|].
    intros [? Hs]%HP. congruence.
Qed.

Lemma length_process_data channels streams logos :
  length (process_data channels streams logos) =
    length (filter (fun channel =>
                      channel_key channel ∈ dom (streams_map streams)) channels).
Proof.
  rewrite process_data_omap. apply length_omap_filter.
  intros channel. apply join_channel_is_Some.
Qed.

Lemma without_logo_join sm lm1 lm2 channel :
  without_logo <$> join_channel sm lm1 channel
  = without_logo <$> join_channel sm lm2 channel.
Proof. unfold join_channel. by destruct (negb _). Qed.

Lemma without_logo_omap sm lm1 lm2 (channels : list Channel) :
  without_logo <$> omap (join_channel sm lm1) channels
  = without_logo <$> omap (join_channel sm lm2) channels.
Proof.
  induction channels as [|channel channels IH]; [done|].
  cbn [omap list_omap].
  pose proof (without_logo_join sm lm1 lm2 channel) as Hc.
  destruct (join_channel sm lm1 channel), (join_channel sm lm2 channel);
    simpl in Hc; try discriminate Hc; [|exact IH].
  rewrite !fmap_cons, IH. congruence.
Qed.
End JoinFacts.

Lemma distinct_joined_ids_filter (sm : gmap pyval pyval) (channels : list Channel) :
  NoDup (filter (fun k => k ∈ dom sm) (channel_key <$> channels)) ->
  distinct_joined_ids sm channels =
    length (filter (fun channel => channel_key channel ∈ dom sm) channels).
Proof.
  intros Hnodup. unfold distinct_joined_ids.
  assert (dom sm ∩ list_to_set (channel_key <$> channels)
          = (list_to_set (filter (fun k => k ∈ dom sm)
                                 (channel_key <$> channels)) : gset pyval))
    as ->.
  { apply set_eq. intros k.
    rewrite elem_of_intersection, !elem_of_list_to_set, list_elem_of_filter.
    done. }
  rewrite size_list_to_set by done.
  clear Hnodup. induction channels as [|c channels IH]; [done|].
  rewrite fmap_cons, !filter_cons.
  destruct (decide (channel_key c ∈ dom sm)); simpl; by rewrite IH.
Qed.

(** C3 as stated fails: a channel id listed twice is joined twice, so the
    number of records is not the number of distinct ids. *)
Lemma count_of_distinct_ids_fails :
  length (@process_data ascii_case twice_c1 stream_c1 [])
  <> distinct_joined_ids (streams_map stream_c1) twice_c1.
Proof. vm_compute. discriminate. Qed.

(** C3, amended: a record is in the output of the join if and only if it
    is the join of a channel entry whose id is a key of StreamLookup; the
    number of records is the number of channel entries, each counted as
    often as it is listed, whose id is a key of StreamLookup; and it is the
    number of distinct such ids when none of them is listed twice. *)
Theorem joined_iff_stream_key {U : UnicodeCase} (channels : list Channel)
    (streams : list Stream) (logos : list Logo) :
  let sm := streams_map streams in
  let lm := logos_map logos in
  (forall joined, joined ∈ process_data channels streams logos
     <-> exists channel, channel ∈ channels /\ join_channel sm lm channel = Some joined)
  /\ (forall channel, is_Some (join_channel sm lm channel)
        <-> channel_key channel ∈ dom sm)
  /\ length (process_data channels streams logos)
     = length (filter (fun channel => channel_key channel ∈ dom sm) channels)
  /\ (NoDup (filter (fun k => k ∈ dom sm) (channel_key <$> channels)) ->
      length (process_data channels streams logos)
      = distinct_joined_ids sm channels).
Proof.
  intros sm lm. split_and!.
  - intros joined. apply elem_of_process_data.
  - intros channel. apply join_channel_is_Some.
  - apply length_process_data.
  - intros Hnodup. rewrite length_process_data.
    symmetry. by apply distinct_joined_ids_filter.
Qed.

Lemma joined_iff_stream_key_witness :
  length (@process_data ascii_case [empty_name_c1; no_id_channel] stream_c1 [])
  = distinct_joined_ids (streams_map stream_c1) [empty_name_c1; no_id_channel].
Proof.
  apply (@joined_iff_stream_key ascii_case [empty_name_c1; no_id_channel]
           stream_c1 []).
  vm_compute. repeat constructor; intros Hin; inversion Hin.
Defined.

(** C4 as stated fails: an empty name is kept, not replaced. *)
Lemma empty_name_is_kept :
  exists joined,
    @process_data ascii_case [empty_name_c1] stream_c1 [] = [joined]
    /\ c_name empty_name_c1 = Some (Some [])
    /\ j_name joined = Some []
    /\ j_name joined <> Some Nombre_Desconocido.
Proof. eexists. vm_compute. split_and!; [reflexivity..|discriminate]. Qed.

(** C4, amended: the ['name'] of an emitted record is the value of the
    source channel's ['name'] key whenever that key is present, the empty
    string and null included, and it is the placeholder
    ["Nombre Desconocido"] when the key is absent. *)
Theorem joined_name {U : UnicodeCase} (channels : list Channel)
    (streams : list Stream) (logos : list Logo) (joined : JoinedChannel) :
  joined ∈ process_data channels streams logos ->
  exists channel,
    channel ∈ channels
    /\ join_channel (streams_map streams) (logos_map logos) channel = Some joined
    /\ (c_name channel = None -> j_name joined = Some Nombre_Desconocido)
    /\ (forall v, c_name channel = Some v -> j_name joined = v).
Proof.
  intros (channel & Hin & Hjoin)%elem_of_process_data.
  exists channel. split_and!; [done..| |].
  - intros Hname. unfold join_channel in Hjoin.
    destruct (negb _); [done|]. injection Hjoin as <-. simpl. by rewrite Hname.
  - intros v Hname. unfold join_channel in Hjoin.
    destruct (negb _); [done|]. injection Hjoin as <-. simpl. by rewrite Hname.
Qed.

Lemma joined_name_witness :
  exists channel,
    channel ∈ [empty_name_c1]
    /\ join_channel (U := ascii_case) (streams_map stream_c1) (logos_map [])
         channel
       = Some {| j_id := Some (u "c1"); j_name := Some []; j_logo := Some [];
                 j_group := u "Sin categoría"; j_url := Some (u "http://a") |}
    /\ (c_name channel = None -> Some [] = Some Nombre_Desconocido)
    /\ (forall v, c_name channel = Some v -> Some [] = v).
Proof.
  apply (@joined_name ascii_case [empty_name_c1] stream_c1 []
           {| j_id := Some (u "c1"); j_name := Some []; j_logo := Some [];
              j_group := u "Sin categoría"; j_url := Some (u "http://a") |}).
  vm_compute. left.
Defined.

(** C9: the logos input decides nothing but the logo.  For the same
    channels and streams, two logos inputs give outputs of the same length
    whose records agree, position by position, on ['id'], ['name'],
    ['group'] and ['url']. *)
Theorem logos_only_decide_the_logo {U : UnicodeCase} (channels : list Channel)
    (streams : list Stream) (logos1 logos2 : list Logo) :
  length (process_data channels streams logos1)
  = length (process_data channels streams logos2)
  /\ without_logo <$> process_data channels streams logos1
     = without_logo <$> process_data channels streams logos2.
Proof.
  assert (without_logo <$> process_data channels streams logos1
          = without_logo <$> process_data channels streams logos2) as Heq.
  { rewrite !process_data_omap. apply without_logo_omap. }
  split; [|done].
  by rewrite <- (length_fmap without_logo), Heq, length_fmap.
Qed.

(** C10: a channel entry whose ['id'] is absent, null or the empty string
    gives no record whatever the streams are, also when a stream entry has
    such a ['channel'] itself: neither [None] nor [''] is ever a key of
    StreamLookup, so the entry is skipped and the output is the one of the
    channel list without it. *)
Theorem no_record_without_id {U : UnicodeCase} (before after : list Channel)
    (channel : Channel) (streams : list Stream) (logos : list Logo) :
  c_id channel = None \/ c_id channel = Some None
    \/ c_id channel = Some (Some []) ->
  streams_map streams !! None = None
  /\ streams_map streams !! Some [] = None
  /\ join_channel (streams_map streams) (logos_map logos) channel = None
  /\ process_data (before ++ channel :: after) streams logos
     = process_data (before ++ after) streams logos.
Proof.
  intros Hid.
  assert (forall k, truthy k = false -> streams_map streams !! k = None)
    as Hnokey.
  { intros k Hk. destruct (streams_map streams !! k) eqn:Hl; [|done].
    apply streams_map_truthy in Hl as [? _]. congruence. }
  assert (join_channel (streams_map streams) (logos_map logos) channel = None)
    as Hskip.
  { apply join_channel_None. rewrite not_elem_of_dom. apply Hnokey.
    unfold channel_key. by destruct Hid as [->|[->| ->]]. }
  split_and!; [by apply Hnokey..|done|].
  rewrite !process_data_omap, !omap_app. cbn [omap list_omap].
  by rewrite Hskip.
Qed.

Lemma no_record_without_id_witness :
  streams_map [no_id_stream] !! None = None
  /\ streams_map [no_id_stream] !! Some [] = None
  /\ join_channel (U := ascii_case) (streams_map [no_id_stream]) (logos_map [])
       no_id_channel = None
  /\ @process_data ascii_case ([] ++ no_id_channel :: []) [no_id_stream] []
     = @process_data ascii_case ([] ++ []) [no_id_stream] [].
Proof.
  apply (@no_record_without_id ascii_case [] [] no_id_channel [no_id_stream] []).
  left. reflexivity.
Defined.

(** ** The group title *)

Section CapitalizeFacts.
Context {U : UnicodeCase}.

Lemma join_channel_found sm lm channel url :
  dict_get sm (channel_key channel) = url ->
  truthy url = true ->
  join_channel sm lm channel =
    Some {| j_id := channel_key channel;
            j_name := get_or (c_name channel) (Some Nombre_Desconocido);
            j_logo := dict_get_or lm (channel_key channel) (Some []);
            j_group := capitalize (group_title_of
                                     (get_or (c_categories channel) (Some [])));
            j_url := url |}.
Proof.
  unfold join_channel, channel_key. intros -> Htruthy. by rewrite Htruthy.
Qed.

Lemma lower_from_app s i a b :
  lower_from s i (a ++ b) = lower_from s i a ++ lower_from s (i + length a) b.
Proof.
  revert i. induction a as [|c a IH]; intros i; simpl.
  - by rewrite Nat.add_0_r.
  - rewrite IH, <- app_assoc. do 3 f_equal. lia.
Qed.

Context {HU : UnicodeCaseAscii U}.

Lemma lower_from_ascii s i rest :
  Forall (fun c => c < 128) rest -> lower_from s i rest = map ascii_tolower rest.
Proof.
  intros Hascii. revert i.
  induction Hascii as [|c rest Hc _ IH]; intros i; simpl; [done|].
  by rewrite lower_ucs4_ascii, IH.
Qed.

Lemma capitalize_ascii s :
  Forall (fun c => c < 128) s -> capitalize s = ascii_capitalize s.
Proof.
  destruct 1 as [|c rest Hc Hrest]; simpl; [done|].
  by rewrite to_title_full_ascii, lower_from_ascii.
Qed.

Lemma capitalize_Sin_Categoria :
  capitalize Sin_Categoria
  = u "Sin categor" ++ lower_ucs4 Sin_Categoria 11 237 ++ u "a".
Proof.
  change Sin_Categoria with (83 :: (u "in Categor" ++ [237] ++ u "a")) at 1.
  unfold capitalize. rewrite to_title_full_ascii by done.
  rewrite !lower_from_app.
  rewrite (lower_from_ascii _ _ (u "in Categor")) by (repeat constructor).
  rewrite (lower_from_ascii _ _ (u "a")) by (repeat constructor).
  cbn [lower_from]. rewrite app_nil_r. vm_compute. reflexivity.
Qed.

Lemma upper_first_only_ascii c rest :
  c < 128 -> upper_first_only (c :: rest) = ascii_toupper c :: rest.
Proof. intros Hc. simpl. by rewrite to_title_full_ascii. Qed.

(** C1, the code at a failing input.  For a channel whose first category
    is ["NEWS"] and a channel without categories, the spec's rule (first
    character in upper case, the rest as it is) gives the groups ["NEWS"] and
    ["Sin Categoría"]; [str.capitalize] also puts the rest in lower case, so
    the join gives ["News"] and ["Sin categoría"]. *)
Theorem group_lowercases_the_rest :
  j_group <$> process_data shouting_channels two_streams []
    = [u "News"; u "Sin categor" ++ lower_ucs4 Sin_Categoria 11 237 ++ u "a"]
  /\ claimed_group <$> shouting_channels = [u "NEWS"; Sin_Categoria]
  /\ u "News" <> u "NEWS"
  /\ u "Sin categor" ++ lower_ucs4 Sin_Categoria 11 237 ++ u "a"
     <> Sin_Categoria.
Proof.
  assert (j_group <$> process_data shouting_channels two_streams []
    = [u "News"; u "Sin categor" ++ lower_ucs4 Sin_Categoria 11 237 ++ u "a"])
    as Hcode.
  { rewrite process_data_omap. unfold shouting_channels.
    cbn [omap list_omap].
    rewrite (join_channel_found _ _ _ (Some (u "http://a")))
      by (vm_compute; reflexivity).
    rewrite (join_channel_found _ _ _ (Some (u "http://b")))
      by (vm_compute; reflexivity).
    cbn [fmap list_fmap j_group channel_of c_categories get_or default
         group_title_of from_option id].
    rewrite capitalize_Sin_Categoria.
    rewrite capitalize_ascii by (repeat constructor). reflexivity. }
  assert (claimed_group <$> shouting_channels = [u "NEWS"; Sin_Categoria])
    as Hclaim.
  { unfold shouting_channels, claimed_group.
    cbn [fmap list_fmap channel_of c_categories get_or default group_title_of
         from_option id].
    change (u "NEWS") with (78 :: u "EWS").
    change Sin_Categoria with (83 :: u "in Categoría").
    by rewrite !upper_first_only_ascii. }
  split; [done|]. split; [done|]. split; [discriminate|].
  intros Heq.
  apply (f_equal (fun group => group !! 4%nat)) in Heq. discriminate Heq.
Qed.
End CapitalizeFacts.

#[global] Instance ascii_case_ascii : UnicodeCaseAscii ascii_case.
Proof. split; reflexivity. Qed.

Lemma group_lowercases_the_rest_witness :
  j_group <$> @process_data ascii_case shouting_channels two_streams []
  = [u "News"; u "Sin categoría"].
Proof.
  apply (@group_lowercases_the_rest ascii_case ascii_case_ascii).
Defined.

(** ** The order of the sort *)

Lemma str_lt_irrefl a : str_lt a a = false.
Proof.
  induction a as [|x a IH]; [done|]. simpl.
  by rewrite N.ltb_irrefl.
Qed.

Lemma str_lt_asym a b : str_lt a b = true -> str_lt b a = false.
Proof.
  revert b. induction a as [|x a IH]; intros [|y b]; simpl; try done.
  destruct (N.ltb_spec x y), (N.ltb_spec y x); try done; try lia.
  apply IH.
Qed.

Lemma str_lt_trans a b c :
  str_lt a b = true -> str_lt b c = true -> str_lt a c = true.
Proof.
  revert b c. induction a as [|x a IH]; intros [|y b] [|z c]; simpl; try done.
  destruct (N.ltb_spec x y), (N.ltb_spec y x), (N.ltb_spec y z),
    (N.ltb_spec z y), (N.ltb_spec x z), (N.ltb_spec z x);
    try done; try lia.
  apply IH.
Qed.

Lemma str_lt_total a b : str_lt a b = false -> str_lt b a = false -> a = b.
Proof.
  revert b. induction a as [|x a IH]; intros [|y b]; simpl; try done.
  destruct (N.ltb_spec x y), (N.ltb_spec y x); try done.
  intros Hab Hba. f_equal; [lia|by apply IH].
Qed.

Lemma str_lt_trichotomy a b :
  str_lt a b = true \/ a = b \/ str_lt b a = true.
Proof.
  destruct (str_lt a b) eqn:Hab; [by left|].
  destruct (str_lt b a) eqn:Hba; [by right; right|].
  right; left. by apply str_lt_total.
Qed.

Lemma name_le_trans a b c : name_le a b -> name_le b c -> name_le a c.
Proof.
  unfold name_le, py_lt.
  destruct (j_name a) as [na|], (j_name b) as [nb|], (j_name c) as [nc|];
    try done.
  intros [= Hba] [= Hcb]. f_equal.
  destruct (str_lt nc na) eqn:Hca; [|done].
  destruct (str_lt na nb) eqn:Hab.
  - by rewrite (str_lt_trans nc na nb) in Hcb.
  - rewrite (str_lt_total na nb) in Hca by done. congruence.
Qed.

Lemma name_le_antisym a b : name_le a b -> name_le b a -> j_name a = j_name b.
Proof.
  unfold name_le, py_lt.
  destruct (j_name a) as [na|], (j_name b) as [nb|]; try done.
  intros [= Hba] [= Hab]. f_equal. by apply str_lt_total.
Qed.

(** ** The sort *)

Lemma insert_by_name_Permutation x l l' :
  insert_by_name x l = Some l' -> Permutation (x :: l) l'.
Proof.
  revert l'. induction l as [|y l IH]; intros l'; simpl.
  - by intros [= <-].
  - destruct (py_lt (j_name y) (j_name x)) as [[]|]; simpl; [|by intros [= <-]|done].
    destruct (insert_by_name x l) as [l''|]; simpl; [|done].
    intros [= <-]. rewrite perm_swap. constructor. by apply IH.
Qed.

Lemma insert_by_name_Some x l :
  is_Some (j_name x) -> Forall (fun c => is_Some (j_name c)) l ->
  is_Some (insert_by_name x l).
Proof.
  intros [nx Hx] Hl. induction Hl as [|y l [ny Hy] _ IH]; simpl; [eauto|].
  rewrite Hx, Hy. simpl. destruct (str_lt ny nx); [|eauto].
  destruct IH as [l' ->]. simpl. eauto.
Qed.

Lemma insert_by_name_sorted x l l' :
  is_Some (j_name x) ->
  StronglySorted name_le l -> insert_by_name x l = Some l' ->
  StronglySorted name_le l'.
Proof.
  intros [nx Hx] Hl. revert l'.
  induction Hl as [|y l Hl IH Hy]; intros l'; simpl.
  - intros [= <-]. by repeat constructor.
  - destruct (py_lt (j_name y) (j_name x)) as [[]|] eqn:Hlt; simpl; [| |done].
    + destruct (insert_by_name x l) as [l''|] eqn:Hins; simpl; [|done].
      intros [= <-]. constructor; [by apply IH|].
      apply insert_by_name_Permutation in Hins.
      rewrite <- Hins. constructor; [|done].
      unfold name_le. unfold py_lt in *. rewrite Hx in *.
      destruct (j_name y) as [ny|]; [|done].
      injection Hlt as Hlt. f_equal. by apply str_lt_asym.
    + intros [= <-]. constructor; [by constructor|].
      constructor; [done|].
      eapply Forall_impl; [exact Hy|]. intros z Hz.
      by apply (name_le_trans x y z).
Qed.

Lemma sort_by_name_Permutation l sorted :
  sort_by_name l = Some sorted -> Permutation l sorted.
Proof.
  revert sorted. induction l as [|x l IH]; intros sorted; simpl.
  - by intros [= <-].
  - destruct (sort_by_name l) as [l'|]; simpl; [|done].
    intros Hins%insert_by_name_Permutation.
    by rewrite (IH l' eq_refl).
Qed.

Lemma sort_by_name_Some l :
  Forall (fun c => is_Some (j_name c)) l -> is_Some (sort_by_name l).
Proof.
  induction 1 as [|x l Hx Hl [l' IH]]; simpl; [eauto|].
  rewrite IH. simpl. apply insert_by_name_Some; [done|].
  apply sort_by_name_Permutation in IH. by rewrite <- IH.
Qed.

Lemma sort_by_name_sorted l sorted :
  Forall (fun c => is_Some (j_name c)) l ->
  sort_by_name l = Some sorted -> StronglySorted name_le sorted.
Proof.
  intros Hl. revert sorted.
  induction Hl as [|x l Hx Hl IH]; intros sorted; simpl.
  - intros [= <-]. constructor.
  - destruct (sort_by_name l) as [l'|]; simpl; [|done].
    intros Hins. eapply insert_by_name_sorted; eauto.
Qed.

(** The sort raises exactly when two or more records are compared and one
    of them has no name to compare. *)
Lemma sort_by_name_None l :
  sort_by_name l = None
  <-> (2 <= length l)%nat /\ Exists (fun c => j_name c = None) l.
Proof.
  split.
  - intros Hnone. split.
    + destruct l as [|x [|y l]]; simpl in *; [done..|lia].
    + destruct (decide (Exists (fun c => j_name c = None) l)) as [|Hall];
        [done|].
      apply not_Exists_Forall in Hall; [|intros c; apply _].
      destruct (sort_by_name_Some l) as [? ?]; [|congruence].
      eapply Forall_impl; [exact Hall|]. intros c Hc. simpl in Hc.
      by destruct (j_name c).
  - intros [Hlen Hex]. induction l as [|x l IH]; simpl in *; [lia|].
    destruct (sort_by_name l) as [l'|] eqn:Hsort; simpl; [|done].
    apply sort_by_name_Permutation in Hsort as Hperm.
    destruct l' as [|y l'].
    { apply Permutation_length in Hperm. simpl in *. lia. }
    simpl. unfold py_lt.
    destruct (j_name y) as [ny|] eqn:Hy; [|done].
    destruct (j_name x) as [nx|] eqn:Hx; [|done].
    exfalso. apply Exists_cons in Hex as [Hex|Hex]; [congruence|].
    destruct (decide (2 <= length l)%nat) as [Hl|Hl].
    { by specialize (IH Hl Hex). }
    destruct l as [|z [|??]]; simpl in *; try lia.
    apply Permutation_singleton_l in Hperm. simplify_eq.
    apply Exists_cons in Hex as [Hex|Hex]; [congruence|by inversion Hex].
Qed.

Lemma sorted_by_name_unique l1 l2 :
  StronglySorted name_le l1 -> StronglySorted name_le l2 ->
  Permutation l1 l2 -> NoDup (j_name <$> l1) -> l1 = l2.
Proof.
  intros Hs1. revert l2.
  induction Hs1 as [|x l1 Hs1 IH Hx]; intros l2 Hs2 Hperm Hnodup.
  { by apply Permutation_nil_l in Hperm. }
  destruct Hs2 as [|y l2 Hs2 Hy].
  { by apply Permutation_nil_r in Hperm. }
  rewrite fmap_cons in Hnodup. apply NoDup_cons in Hnodup as [Hfresh Hnodup].
  assert (x = y) as <-.
  { assert (y ∈ x :: l1) as Hyin by (rewrite Hperm; left).
    apply elem_of_cons in Hyin as [->|Hyin]; [done|].
    assert (x ∈ y :: l2) as Hxin by (rewrite <- Hperm; left).
    apply elem_of_cons in Hxin as [->|Hxin]; [done|].
    rewrite Forall_forall in Hx, Hy.
    exfalso. apply Hfresh.
    rewrite (name_le_antisym x y) by auto.
    by apply list_elem_of_fmap_2. }
  f_equal. apply IH; [done| |done].
  by apply Permutation_cons_inv in Hperm.
Qed.

(** ** The rendered text *)

Lemma m3u_content_flat_map sorted :
  m3u_content sorted =
    Some EXTM3U
      :: flat_map (fun c => [Some (extinf_line c); j_url c]) sorted.
Proof.
  unfold m3u_content.
  enough (forall acc,
            foldl (fun content channel =>
                     (content ++ [Some (extinf_line channel)])
                       ++ [j_url channel]) acc sorted
            = acc ++ flat_map (fun c => [Some (extinf_line c); j_url c]) sorted)
    as Hacc by apply Hacc.
  induction sorted as [|c sorted IH]; intros acc; simpl.
  - by rewrite app_nil_r.
  - rewrite IH, <- !app_assoc. done.
Qed.

Lemma join_lines_content sorted :
  Forall (fun c => is_Some (j_url c)) sorted ->
  join_lines (m3u_content sorted)
  = Some (str_join [LF] (EXTM3U :: flat_map entry_lines sorted)).
Proof.
  intros Hurl. unfold join_lines. rewrite m3u_content_flat_map.
  enough (mapM (fun item : pyval => item)
            (flat_map (fun c => [Some (extinf_line c); j_url c]) sorted)
          = Some (flat_map entry_lines sorted)) as Hitems.
  { cbn [mapM]. simpl. by rewrite Hitems. }
  induction Hurl as [|c sorted [url Hc] _ IH]; [done|].
  simpl. rewrite Hc, IH. done.
Qed.

Lemma generate_m3u_file_sorted l :
  Forall str_fields l ->
  exists sorted,
    sort_by_name l = Some sorted
    /\ Permutation l sorted
    /\ StronglySorted name_le sorted
    /\ generate_m3u_file l
       = Some (str_join [LF] (EXTM3U :: flat_map entry_lines sorted)).
Proof.
  intros Hl.
  assert (Forall (fun c => is_Some (j_name c)) l) as Hnames.
  { eapply Forall_impl; [exact Hl|]. by intros c [? ?]. }
  destruct (sort_by_name_Some l Hnames) as [sorted Hsort].
  pose proof (sort_by_name_Permutation _ _ Hsort) as Hperm.
  exists sorted. split_and!; [done..|by eapply sort_by_name_sorted|].
  unfold generate_m3u_file. rewrite Hsort. simpl.
  apply join_lines_content. rewrite <- Hperm.
  eapply Forall_impl; [exact Hl|]. by intros c [? ?].
Qed.

Lemma split_lines_no_LF line : LF ∉ line -> split_lines line = [line].
Proof.
  induction line as [|c line IH]; [done|].
  intros [Hc Hline]%not_elem_of_cons. simpl.
  rewrite IH by done. destruct (N.eqb_spec c LF); congruence.
Qed.

Lemma split_lines_app_LF line text :
  LF ∉ line -> split_lines (line ++ LF :: text) = line :: split_lines text.
Proof.
  induction line as [|c line IH]; [done|].
  intros [Hc Hline]%not_elem_of_cons. simpl.
  rewrite IH by done. destruct (N.eqb_spec c LF); congruence.
Qed.

Lemma split_lines_str_join lines :
  lines <> [] -> Forall (fun line => LF ∉ line) lines ->
  split_lines (str_join [LF] lines) = lines.
Proof.
  intros Hne Hlines. induction Hlines as [|line lines Hline Hlines IH]; [done|].
  destruct lines as [|line' lines].
  - simpl. by apply split_lines_no_LF.
  - change (str_join [LF] (line :: line' :: lines))
      with (line ++ LF :: str_join [LF] (line' :: lines)).
    rewrite split_lines_app_LF by done. f_equal. by apply IH.
Qed.

Lemma extinf_line_no_LF c :
  LF ∉ format_value (j_id c) -> LF ∉ format_value (j_logo c) ->
  LF ∉ j_group c -> LF ∉ format_value (j_name c) ->
  LF ∉ extinf_line c.
Proof.
  intros Hid Hlogo Hgroup Hname. unfold extinf_line.
  assert (forall s : string,
            bool_decide (LF ∉ u s) = true -> LF ∉ u s) as Hconst.
  { intros s. apply bool_decide_eq_true_1. }
  rewrite !not_elem_of_app.
  split_and!; try done; try (by apply Hconst);
    by (intros [?|?%elem_of_nil]%elem_of_cons).
Qed.

Lemma length_flat_map_entry_lines sorted :
  length (flat_map entry_lines sorted) = (2 * length sorted)%nat.
Proof. induction sorted as [|c sorted IH]; simpl; [done|]. rewrite IH. lia. Qed.

Lemma lookup_flat_map_entry_lines sorted i c :
  sorted !! i = Some c ->
  flat_map entry_lines sorted !! (2 * i)%nat = Some (extinf_line c)
  /\ flat_map entry_lines sorted !! (2 * i + 1)%nat
     = Some (format_value (j_url c)).
Proof.
  revert i. induction sorted as [|c' sorted IH]; intros [|i]; simpl; try done.
  - by intros [= ->].
  - intros Hi. replace (i + S (i + 0))%nat with (S (2 * i)) by lia.
    replace (S (2 * i) + 1)%nat with (S (2 * i + 1)) by lia.
    simpl. by apply IH.
Qed.

Lemma insert_by_name_filter x l l' (n : pyval) :
  insert_by_name x l = Some l' ->
  filter (fun c => j_name c = n) l' = filter (fun c => j_name c = n) (x :: l).
Proof.
  revert l'. induction l as [|y l IH]; intros l'; simpl.
  - by intros [= <-].
  - unfold py_lt.
    destruct (j_name y) as [ny|] eqn:Hy; simpl; [|done].
    destruct (j_name x) as [nx|] eqn:Hx; simpl; [|done].
    destruct (str_lt ny nx) eqn:Hlt; [|by intros [= <-]].
    destruct (insert_by_name x l) as [l''|]; simpl; [|done].
    intros [= <-].
    assert (ny <> nx) as Hne.
    { intros ->. by rewrite str_lt_irrefl in Hlt. }
    rewrite (filter_cons _ y), (IH l'' eq_refl), !filter_cons.
    destruct (decide (j_name y = n)), (decide (j_name x = n)); try done.
    congruence.
Qed.

Lemma sort_by_name_keeps_order l sorted (n : pyval) :
  sort_by_name l = Some sorted ->
  filter (fun c => j_name c = n) sorted = filter (fun c => j_name c = n) l.
Proof.
  revert sorted. induction l as [|x l IH]; intros sorted; simpl.
  - by intros [= <-].
  - destruct (sort_by_name l) as [l'|] eqn:Hsort; simpl; [|done].
    intros Hins. rewrite (insert_by_name_filter _ _ _ n Hins), !filter_cons.
    by rewrite (IH l' eq_refl).
Qed.

(** C5 as stated fails: two records of the same name keep the order of
    the input, so the text depends on it. *)
Lemma permuted_input_other_text :
  Permutation same_name_pair (reverse same_name_pair)
  /\ generate_m3u_file same_name_pair
     <> generate_m3u_file (reverse same_name_pair).
Proof.
  split; [apply perm_swap|]. vm_compute. discriminate.
Qed.

(** C5, amended: for records whose name and URL are strings, the rendered
    text lists the records sorted by name, ascending in the code point
    order of [str], which is total; records of equal name keep their input
    order; and every permutation of an input whose names are pairwise
    distinct renders to the same text. *)
Theorem render_sorted_by_name (l : list JoinedChannel) :
  Forall str_fields l ->
  (forall a b : pystr, str_lt a b = true \/ a = b \/ str_lt b a = true)
  /\ exists sorted,
    Permutation l sorted
    /\ StronglySorted name_le sorted
    /\ (forall n : pyval,
          filter (fun c => j_name c = n) sorted
          = filter (fun c => j_name c = n) l)
    /\ generate_m3u_file l
       = Some (str_join [LF] (EXTM3U :: flat_map entry_lines sorted))
    /\ forall l', Permutation l l' -> NoDup (j_name <$> l) ->
                  generate_m3u_file l' = generate_m3u_file l.
Proof.
  intros Hl. split; [apply str_lt_trichotomy|].
  destruct (generate_m3u_file_sorted l Hl)
    as (sorted & Hsort & Hperm & Hsorted & Htext).
  exists sorted.
  split; [done|]. split; [done|].
  split; [intros n; by apply sort_by_name_keeps_order|].
  split; [done|].
  intros l' Hperm' Hnodup.
  assert (Forall str_fields l') as Hl' by by rewrite <- Hperm'.
  destruct (generate_m3u_file_sorted l' Hl')
    as (sorted' & _ & Hperm2 & Hsorted' & Htext').
  rewrite Htext, Htext'. do 4 f_equal.
  apply sorted_by_name_unique; [done..| |].
  - by rewrite <- Hperm2, <- Hperm', Hperm.
  - by rewrite <- Hperm2, <- Hperm'.
Qed.

Lemma render_sorted_by_name_witness :
  (forall a b : pystr, str_lt a b = true \/ a = b \/ str_lt b a = true)
  /\ exists sorted,
    Permutation alpha_beta sorted
    /\ StronglySorted name_le sorted
    /\ (forall n : pyval,
          filter (fun c => j_name c = n) sorted
          = filter (fun c => j_name c = n) alpha_beta)
    /\ generate_m3u_file alpha_beta
       = Some (str_join [LF] (EXTM3U :: flat_map entry_lines sorted))
    /\ forall l', Permutation alpha_beta l' -> NoDup (j_name <$> alpha_beta) ->
                  generate_m3u_file l' = generate_m3u_file alpha_beta.
Proof.
  apply (render_sorted_by_name alpha_beta).
  repeat constructor; vm_compute; eauto.
Defined.

(** C8 as stated fails: a line feed inside a name splits the [#EXTINF]
    line, one record then gives three lines after the header. *)
Lemma line_feed_in_name_adds_a_line :
  exists text,
    generate_m3u_file [two_line_name] = Some text
    /\ length (tail (split_lines text)) = 3%nat
    /\ length (tail (split_lines text)) <> (2 * length [two_line_name])%nat.
Proof. eexists. vm_compute. split_and!; [reflexivity..|discriminate]. Qed.

(** C8, amended: for [n] records whose name and URL are strings and whose
    fields hold no line feed, the rendered text is the header line
    ["#EXTM3U"] followed by exactly [2 * n] lines, and for the [i]-th
    record in sorted order line [1 + 2 * i] is its [#EXTINF] line and line
    [2 + 2 * i] its stream URL. *)
Theorem rendered_lines (l : list JoinedChannel) :
  Forall one_line_fields l ->
  exists sorted text,
    Permutation l sorted
    /\ generate_m3u_file l = Some text
    /\ split_lines text = EXTM3U :: flat_map entry_lines sorted
    /\ length (tail (split_lines text)) = (2 * length l)%nat
    /\ forall i c, sorted !! i = Some c ->
         split_lines text !! (1 + 2 * i)%nat = Some (extinf_line c)
         /\ split_lines text !! (2 + 2 * i)%nat
            = Some (format_value (j_url c)).
Proof.
  intros Hl.
  assert (Forall str_fields l) as Hstr.
  { eapply Forall_impl; [exact Hl|]. by intros c (? & ? & _). }
  destruct (generate_m3u_file_sorted l Hstr)
    as (sorted & _ & Hperm & _ & Htext).
  assert (split_lines (str_join [LF] (EXTM3U :: flat_map entry_lines sorted))
          = EXTM3U :: flat_map entry_lines sorted) as Hsplit.
  { apply split_lines_str_join; [done|].
    constructor; [apply (bool_decide_unpack _); by vm_compute|].
    rewrite Hperm in Hl. clear -Hl.
    induction Hl as [|c sorted (_ & _ & ? & ? & ? & ? & ?) _ IH]; simpl;
      [done|].
    constructor; [by apply extinf_line_no_LF|]. by constructor. }
  exists sorted, (str_join [LF] (EXTM3U :: flat_map entry_lines sorted)).
  rewrite Hsplit. split_and!; [done..| |].
  - simpl. rewrite length_flat_map_entry_lines.
    by rewrite (Permutation_length Hperm).
  - intros i c Hi.
    destruct (lookup_flat_map_entry_lines sorted i c Hi) as [Hinf Hurl].
    split; [exact Hinf|].
    replace (2 + 2 * i)%nat with (S (2 * i + 1)) by lia. exact Hurl.
Qed.

Lemma rendered_lines_witness :
  exists sorted text,
    Permutation alpha_beta sorted
    /\ generate_m3u_file alpha_beta = Some text
    /\ split_lines text = EXTM3U :: flat_map entry_lines sorted
    /\ length (tail (split_lines text)) = (2 * length alpha_beta)%nat
    /\ forall i c, sorted !! i = Some c ->
         split_lines text !! (1 + 2 * i)%nat = Some (extinf_line c)
         /\ split_lines text !! (2 + 2 * i)%nat
            = Some (format_value (j_url c)).
Proof.
  apply (rendered_lines alpha_beta).
  repeat constructor; try (vm_compute; eauto; fail);
    apply (bool_decide_unpack _); by vm_compute.
Defined.

(** ** [fetch_json] and [main] *)

(** Runs the binds and events of a computation applied to a trace. *)
Ltac run_M :=
  unfold mbind, M_bind, mret, M_ret, print, emit, raise; cbv beta iota.

Lemma fetch_json_run {A} (url : pystr) (reply : http_reply A) (t : list event) :
  raises_only_RequestException reply ->
  fetch_json url reply t = (Returned (fetched reply), t ++ fetch_events url reply).
Proof.
  intros Hreq. unfold fetch_json, fetch_events, except_RequestException.
  destruct reply as [e|e|e|v]; cbn [raised_in_try fetched];
    try rewrite (Hreq e eq_refl); run_M; by rewrite <- ?app_assoc.
Qed.

Lemma fetch_json_propagates {A} (url : pystr) (reply : http_reply A) e t :
  raised_in_try reply = Some e ->
  isinstance_RequestException (exn_class e) = false ->
  fetch_json url reply t = (Uncaught (exn_class e), t ++ [HttpGet url]).
Proof.
  intros Hraised Hclass. unfold fetch_json, except_RequestException.
  destruct reply; cbn [raised_in_try] in Hraised; try discriminate Hraised;
    injection Hraised as ->; rewrite Hclass; by run_M.
Qed.

(** C7 as stated fails: a body that is not JSON, for which the library
    raises an exception that is not a [RequestException] (the [ValueError]
    of [response.json()] before requests 2.27), is not caught: the
    exception reaches the caller and no diagnostic is printed. *)
Lemma malformed_body_can_propagate :
  raised_in_try value_error_reply
    = Some {| exn_class := OtherError;
              exn_text := u "Expecting value: line 1 column 1 (char 0)" |}
  /\ fetch_json (API_URLS streams_key) value_error_reply []
     = (Uncaught OtherError, [HttpGet (API_URLS streams_key)]).
Proof. split; reflexivity. Qed.

(** C7, amended: for every URL, [fetch_json] returns the parsed JSON value
    when the three library calls return; when one of them raises a
    [requests.RequestException] (as the library does for a network error,
    for a failing status in [raise_for_status] and, from requests 2.27 on,
    for a body that is not JSON) it prints a line that holds the URL and
    returns [None]; an exception of any other class raised by these calls
    is not caught and reaches the caller, after the GET and with nothing
    printed.  One of the three cases always applies. *)
Theorem fetch_json_outcome {A} (url : pystr) (reply : http_reply A)
    (t : list event) :
  ((exists v, reply = JsonValue v) \/ (exists e, raised_in_try reply = Some e))
  /\ (forall v, reply = JsonValue v ->
        fetch_json url reply t = (Returned (Some v), t ++ [HttpGet url]))
  /\ (forall e, raised_in_try reply = Some e ->
        isinstance_RequestException (exn_class e) = true ->
        fetch_json url reply t
        = (Returned None, t ++ [HttpGet url; Stdout (fetch_error_line url e)])
        /\ exists before after, fetch_error_line url e = before ++ url ++ after)
  /\ (forall e, raised_in_try reply = Some e ->
        isinstance_RequestException (exn_class e) = false ->
        fetch_json url reply t = (Uncaught (exn_class e), t ++ [HttpGet url])).
Proof.
  split; [destruct reply; cbn [raised_in_try]; eauto|].
  split; [|split].
  - intros v ->. unfold fetch_json. by run_M.
  - intros e Hraised Hclass.
    rewrite fetch_json_run by (intros e' He'; congruence).
    unfold fetch_events. rewrite Hraised.
    split; [by destruct reply|].
    by exists (u "Error descargando "), (u ": " ++ exn_text e).
  - intros e Hraised Hclass. by apply fetch_json_propagates.
Qed.

Section MainFacts.
Context {U : UnicodeCase}.

(** C6, the code at a failing input.  The three fetches return data, the
    logos dataset being the empty array, and the join of the channels and
    streams has one record; [main] nevertheless prints that the download
    failed and stops before the join: [all] takes the empty list for a
    failed fetch. *)
Theorem main_aborts_on_empty_logos :
  let w := empty_logos_world in
  fetched (reply_channels w) = Some [channel_of (u "c1") (u "Uno") []]
  /\ fetched (reply_streams w) = Some stream_c1
  /\ fetched (reply_logos w) = Some []
  /\ length (process_data [channel_of (u "c1") (u "Uno") []] stream_c1 []) = 1%nat
  /\ run (main w)
     = (Returned tt,
        [Stdout (u "Iniciando la generación de la lista M3U8...");
         Stdout (u "Descargando datos de la API...");
         HttpGet (API_URLS channels_key);
         HttpGet (API_URLS streams_key);
         HttpGet (API_URLS logos_key);
         Stdout (u "Error: No se pudieron descargar todos los archivos de la API. Abortando.")])
  /\ aborted_before_join (snd (run (main w))).
Proof.
  intros w.
  assert (run (main w)
     = (Returned tt,
        [Stdout (u "Iniciando la generación de la lista M3U8...");
         Stdout (u "Descargando datos de la API...");
         HttpGet (API_URLS channels_key);
         HttpGet (API_URLS streams_key);
         HttpGet (API_URLS logos_key);
         Stdout (u "Error: No se pudieron descargar todos los archivos de la API. Abortando.")]))
    as Hrun by (vm_compute; reflexivity).
  split_and!; [done..| |exact Hrun|].
  - rewrite length_process_data. vm_compute. reflexivity.
  - rewrite Hrun. unfold aborted_before_join. simpl.
    split_and!; [| |intros path content|intros path];
      rewrite !not_elem_of_cons; split_and!; try discriminate;
      apply not_elem_of_nil.
Qed.

(** An event is in a trace when it was appended to it at some point. *)
Ltac in_trace :=
  repeat first
    [ solve [apply elem_of_app; right; by apply list_elem_of_singleton]
    | apply elem_of_app; left ].

Lemma call_generate_m3u_file_trace channels t :
  exists o, call_generate_m3u_file channels t
            = (o, t ++ [Call generate_m3u_file_fn]).
Proof.
  unfold call_generate_m3u_file. run_M.
  destruct (generate_m3u_file channels); eauto.
Qed.

Lemma write_output_trace w content t :
  exists o events, write_output w content t = (o, t ++ events).
Proof.
  unfold write_output, except_IOError.
  destruct (write_result w) as [|e|e];
    [|destruct (isinstance_IOError _)..];
    run_M; rewrite <- ?app_assoc; eauto.
  exists (Uncaught (exn_class e)), []. by rewrite app_nil_r.
Qed.

(** What [main] does after the three fetches, when none of them lets an
    exception through: it stops there exactly when [all] finds a fetched
    value false, otherwise it goes on to call [process_data]. *)
Lemma main_run (w : World) :
  raises_only_RequestException (reply_channels w) ->
  raises_only_RequestException (reply_streams w) ->
  raises_only_RequestException (reply_logos w) ->
  let fetching :=
    [Stdout (u "Iniciando la generación de la lista M3U8...");
     Stdout (u "Descargando datos de la API...")]
      ++ fetch_events (API_URLS channels_key) (reply_channels w)
      ++ fetch_events (API_URLS streams_key) (reply_streams w)
      ++ fetch_events (API_URLS logos_key) (reply_logos w) in
  if all [truthy_data (fetched (reply_channels w));
          truthy_data (fetched (reply_streams w));
          truthy_data (fetched (reply_logos w))]
  then Call process_data_fn ∈ snd (run (main w))
  else run (main w)
       = (Returned tt,
          fetching ++ [Stdout (u "Error: No se pudieron descargar todos los archivos de la API. Abortando.")]).
Proof.
  intros Hc Hs Hl fetching.
  unfold run, main. run_M.
  rewrite fetch_json_run by exact Hc. cbv beta iota.
  rewrite fetch_json_run by exact Hs. cbv beta iota.
  rewrite fetch_json_run by exact Hl. cbv beta iota.
  subst fetching.
  destruct (all _) eqn:Hall; cbn [negb]; cbv beta.
  2: { by rewrite <- !app_assoc. }
  unfold call_process_data. run_M.
  destruct (fetched (reply_channels w)) as [channels|],
    (fetched (reply_streams w)) as [streams|],
    (fetched (reply_logos w)) as [logos|]; cbv beta iota;
    try (cbn [snd]; by in_trace).
  destruct (bool_decide _); cbv beta; [cbn [snd]; by in_trace|].
  match goal with
  | |- context [call_generate_m3u_file ?a ?t] =>
      destruct (call_generate_m3u_file_trace a t) as [o ->]
  end.
  destruct o as [content|k]; cbv beta iota; [|cbn [snd]; by in_trace].
  match goal with
  | |- context [write_output ?w ?a ?t] =>
      destruct (write_output_trace w a t) as (o & events & ->)
  end.
  destruct o; cbv beta iota; cbn [snd]; by in_trace.
Qed.

Lemma fetch_events_quiet {A} url (reply : http_reply A) :
  Forall (fun e => match e with Stdout _ | HttpGet _ => True | _ => False end)
         (fetch_events url reply).
Proof.
  unfold fetch_events. destruct (raised_in_try reply); by repeat constructor.
Qed.

(** [main] stops before the join if and only if one of the three fetched
    values is false for [all]: [None], and the empty list as well. *)
Lemma main_aborts_before_join_iff (w : World) :
  raises_only_RequestException (reply_channels w) ->
  raises_only_RequestException (reply_streams w) ->
  raises_only_RequestException (reply_logos w) ->
  aborted_before_join (snd (run (main w)))
  <-> all [truthy_data (fetched (reply_channels w));
           truthy_data (fetched (reply_streams w));
           truthy_data (fetched (reply_logos w))] = false.
Proof.
  intros Hc Hs Hl. pose proof (main_run w Hc Hs Hl) as Hrun. cbv zeta in Hrun.
  destruct (all _).
  - split; [|done]. by intros [Hjoin _].
  - rewrite Hrun. split; [done|]. intros _. cbn [snd].
    assert (Forall (fun e => match e with
                             | Stdout _ | HttpGet _ => True
                             | _ => False
                             end)
              (([Stdout (u "Iniciando la generación de la lista M3U8...");
                 Stdout (u "Descargando datos de la API...")]
                ++ fetch_events (API_URLS channels_key) (reply_channels w)
                ++ fetch_events (API_URLS streams_key) (reply_streams w)
                ++ fetch_events (API_URLS logos_key) (reply_logos w))
               ++ [Stdout (u "Error: No se pudieron descargar todos los archivos de la API. Abortando.")]))
      as Hquiet.
    { rewrite !Forall_app. split_and!; try apply fetch_events_quiet;
        by repeat constructor. }
    rewrite Forall_forall in Hquiet.
    split_and!; [| |intros path content|intros path];
      intros Hin%Hquiet; done.
Qed.
End MainFacts.

(** ** More on the lookup dictionaries *)

Section FirstWinsLaws.
Context {E : Type} (channel url : E -> pyval).

Lemma build_from m entries k :
  build channel url m entries !! k =
    match m !! k with
    | Some old => Some old
    | None => build channel url ∅ entries !! k
    end.
Proof. rewrite !build_lookup, lookup_empty. done. Qed.

Lemma build_app_union a b :
  build channel url ∅ (a ++ b)
  = build channel url ∅ a ∪ build channel url ∅ b.
Proof.
  apply map_eq. intros k. unfold build at 1. rewrite foldl_app.
  fold (build channel url ∅ a).
  fold (build channel url (build channel url ∅ a) b).
  rewrite build_from, lookup_union.
  destruct (build channel url ∅ a !! k), (build channel url ∅ b !! k); done.
Qed.

Lemma build_is_Some entries k :
  is_Some (build channel url ∅ entries !! k)
  <-> truthy k = true
      /\ exists e, e ∈ entries /\ channel e = k /\ truthy (url e) = true.
Proof.
  rewrite build_lookup, lookup_empty, fmap_is_Some. split.
  - intros [e He]. apply find_some in He as [Hin Hp].
    apply andb_prop in Hp as [[Hk%bool_decide_eq_true_1 Ht]%andb_prop Hu].
    split; [done|]. exists e. by rewrite list_elem_of_In.
  - intros (Ht & e & Hin & Hk & Hu).
    destruct (List.find _ entries) as [e'|] eqn:Hfind; [by eauto|].
    apply list_elem_of_In in Hin.
    pose proof (find_none _ _ Hfind e Hin) as Hnone. simpl in Hnone.
    rewrite bool_decide_eq_true_2, Ht, Hu in Hnone by done. done.
Qed.
End FirstWinsLaws.

(** X1: later entries never change what earlier ones fixed.  The lookup
    dictionary of a concatenated input is the left-biased union of the
    dictionaries of its two parts, for the streams and for the logos. *)
Theorem lookup_maps_of_app (streams1 streams2 : list Stream)
    (logos1 logos2 : list Logo) :
  streams_map (streams1 ++ streams2)
    = streams_map streams1 ∪ streams_map streams2
  /\ logos_map (logos1 ++ logos2) = logos_map logos1 ∪ logos_map logos2.
Proof.
  rewrite !streams_map_build, !logos_map_build.
  split; apply build_app_union.
Qed.

(** X2: the keys of StreamLookup.  A value is a key of [streams_map] if
    and only if it is a non-empty string and some stream entry has it as
    ['channel'] together with a non-empty string as ['url']. *)
Theorem streams_map_keys (streams : list Stream) (k : pyval) :
  k ∈ dom (streams_map streams)
  <-> truthy k = true
      /\ exists stream, stream ∈ streams /\ get (s_channel stream) = k
                        /\ truthy (get (s_url stream)) = true.
Proof.
  rewrite elem_of_dom, streams_map_build. apply build_is_Some.
Qed.

Section JoinLaws.
Context {U : UnicodeCase}.

Lemma join_channel_Some_inv streams logos channel joined :
  join_channel (streams_map streams) (logos_map logos) channel = Some joined ->
  exists id url logo,
    id <> [] /\ url <> []
    /\ channel_key channel = Some id
    /\ streams_map streams !! Some id = Some (Some url)
    /\ dict_get_or (logos_map logos) (Some id) (Some []) = Some logo
    /\ joined = {| j_id := Some id;
                   j_name := get_or (c_name channel) (Some Nombre_Desconocido);
                   j_logo := Some logo;
                   j_group := capitalize (group_title_of
                                (get_or (c_categories channel) (Some [])));
                   j_url := Some url |}.
Proof.
  unfold join_channel, dict_get. fold (channel_key channel).
  destruct (streams_map streams !! channel_key channel) as [v|] eqn:Hv;
    simpl; [|done].
  destruct (streams_map_truthy _ _ _ Hv) as [Hk Hu].
  rewrite Hu. simpl. intros [= <-].
  destruct (channel_key channel) as [[|c id]|]; try done.
  destruct v as [[|c' url]|]; try done.
  assert (exists logo,
            dict_get_or (logos_map logos) (Some (c :: id)) (Some []) = Some logo)
    as [logo Hlogo].
  { unfold dict_get_or.
    destruct (logos_map logos !! Some (c :: id)) as [w|] eqn:Hw; simpl;
      [|by eauto].
    apply logos_map_truthy in Hw as [_ Hw]. destruct w; [eauto|done]. }
  exists (c :: id), (c' :: url), logo. rewrite Hlogo. done.
Qed.

(** X3: what an emitted record holds.  In every record of the join
    output the id is a non-empty string, the URL is a non-empty string and
    the logo is a string, never [None]. *)
Theorem joined_fields_are_strings (channels : list Channel)
    (streams : list Stream) (logos : list Logo) (joined : JoinedChannel) :
  joined ∈ process_data channels streams logos ->
  (exists id, j_id joined = Some id /\ id <> [])
  /\ (exists url, j_url joined = Some url /\ url <> [])
  /\ (exists logo, j_logo joined = Some logo).
Proof.
  intros (channel & _ & Hjoin)%elem_of_process_data.
  apply join_channel_Some_inv
    in Hjoin as (id & url & logo & Hid & Hurl & _ & _ & _ & ->).
  simpl. eauto 10.
Qed.

(** X4: where the URL and the logo of a record come from.  The URL of
    an emitted record is the ['url'] of the first stream entry with a
    non-empty URL for the record's id, and its logo is the ['url'] of the
    first such logo entry, or the empty string when there is none. *)
Theorem joined_url_and_logo (channels : list Channel)
    (streams : list Stream) (logos : list Logo) (joined : JoinedChannel) :
  joined ∈ process_data channels streams logos ->
  exists id,
    j_id joined = Some id
    /\ first_url (fun s => get (s_channel s)) (fun s => get (s_url s)) id streams
       = Some (j_url joined)
    /\ j_logo joined
       = default (Some [])
           (first_url (fun l => get (l_channel l)) (fun l => get (l_url l))
              id logos).
Proof.
  intros (channel & _ & Hjoin)%elem_of_process_data.
  apply join_channel_Some_inv
    in Hjoin as (id & url & logo & Hid & Hurl & _ & Hs & Hl & ->).
  exists id. simpl. split_and!; [done| |].
  - by rewrite <- (build_first_url _ _ streams id Hid), <- streams_map_build.
  - rewrite <- Hl. unfold dict_get_or.
    by rewrite logos_map_build, (build_first_url _ _ logos id Hid).
Qed.

(** X5: the join keeps the order of the channel list and works entry by
    entry.  The output for a concatenated channel list is the concatenation
    of the outputs, and it is never longer than the channel list. *)
Theorem process_data_app (channels1 channels2 : list Channel)
    (streams : list Stream) (logos : list Logo) :
  process_data (channels1 ++ channels2) streams logos
    = process_data channels1 streams logos
        ++ process_data channels2 streams logos
  /\ (length (process_data channels1 streams logos) <= length channels1)%nat.
Proof.
  split.
  - rewrite !process_data_omap. apply omap_app.
  - rewrite length_process_data. apply length_filter.
Qed.

(** X6: a channel that no stream entry serves is dropped.  When every
    stream entry either names another channel or has no non-empty URL, the
    channel gives no record and the output is the one of the channel list
    without it. *)
Theorem channel_without_stream_is_dropped (before after : list Channel)
    (channel : Channel) (streams : list Stream) (logos : list Logo) :
  Forall (fun stream => get (s_channel stream) <> channel_key channel
                        \/ truthy (get (s_url stream)) = false) streams ->
  join_channel (streams_map streams) (logos_map logos) channel = None
  /\ process_data (before ++ channel :: after) streams logos
     = process_data (before ++ after) streams logos.
Proof.
  intros Hnone.
  assert (join_channel (streams_map streams) (logos_map logos) channel = None)
    as Hskip.
  { apply join_channel_None. rewrite streams_map_build, elem_of_dom.
    rewrite build_is_Some. intros (_ & stream & Hin & Hk & Hu).
    rewrite Forall_forall in Hnone.
    destruct (Hnone stream Hin) as [Hne|Hfalse]; congruence. }
  split; [done|].
  rewrite !process_data_omap, !omap_app. cbn [omap list_omap].
  by rewrite Hskip.
Qed.

(** X7: empty inputs.  Without channels, or without streams, the join
    output is empty, whatever the other inputs are. *)
Theorem process_data_of_nothing (channels : list Channel)
    (streams : list Stream) (logos : list Logo) :
  process_data [] streams logos = []
  /\ process_data channels [] logos = [].
Proof.
  split; [done|].
  rewrite process_data_omap.
  induction channels as [|channel channels IH]; [done|].
  cbn [omap list_omap]. rewrite IH.
  replace (join_channel (streams_map []) (logos_map logos) channel)
    with (@None JoinedChannel); [done|].
  symmetry. apply join_channel_None. rewrite elem_of_dom.
  unfold streams_map. simpl. rewrite lookup_empty. by intros [? ?].
Qed.
End JoinLaws.

(** ** More on the renderer *)

Lemma join_lines_content_None sorted :
  Exists (fun c => j_url c = None) sorted ->
  join_lines (m3u_content sorted) = None.
Proof.
  intros Hex. unfold join_lines. rewrite m3u_content_flat_map.
  enough (mapM (fun item : pyval => item)
            (flat_map (fun c => [Some (extinf_line c); j_url c]) sorted)
          = None) as Hitems.
  { cbn [mapM]. simpl. by rewrite Hitems. }
  induction Hex as [c sorted Hc|c sorted _ IH]; simpl.
  - by rewrite Hc.
  - rewrite IH. by destruct (j_url c).
Qed.

Lemma sort_by_name_sorted_any l sorted :
  sort_by_name l = Some sorted -> StronglySorted name_le sorted.
Proof.
  intros Hsort.
  destruct (decide (Forall (fun c => is_Some (j_name c)) l)) as [Hall|Hnot].
  { by eapply sort_by_name_sorted. }
  destruct l as [|x [|y l]].
  - injection Hsort as <-. constructor.
  - injection Hsort as <-. by repeat constructor.
  - assert (sort_by_name (x :: y :: l) = None) as Hnone; [|congruence].
    apply sort_by_name_None. split; [simpl; lia|].
    apply not_Forall_Exists in Hnot; [|intros c; apply _].
    eapply Exists_impl; [exact Hnot|]. intros c Hc. simpl in Hc.
    destruct (j_name c); [|done]. exfalso. apply Hc. eauto.
Qed.

Lemma sort_by_name_of_sorted l :
  StronglySorted name_le l -> sort_by_name l = Some l.
Proof.
  induction 1 as [|x l Hl IH Hx]; [done|].
  simpl. rewrite IH. simpl.
  destruct Hx as [|y l Hxy _]; [done|].
  simpl. unfold name_le in Hxy. by rewrite Hxy.
Qed.

(** X8: when the renderer raises.  [generate_m3u_file] ends in a
    [TypeError] if and only if two or more records are to be sorted and one
    of them has [None] as name, or some record has [None] as URL. *)
Theorem generate_m3u_file_raises (l : list JoinedChannel) :
  generate_m3u_file l = None
  <-> ((2 <= length l)%nat /\ Exists (fun c => j_name c = None) l)
      \/ Exists (fun c => j_url c = None) l.
Proof.
  unfold generate_m3u_file.
  destruct (sort_by_name l) as [sorted|] eqn:Hsort; simpl.
  - pose proof (sort_by_name_Permutation _ _ Hsort) as Hperm.
    split.
    + intros Hnone. right. rewrite Hperm.
      destruct (decide (Exists (fun c => j_url c = None) sorted)) as [|Hall];
        [done|].
      apply not_Exists_Forall in Hall; [|intros c; apply _].
      rewrite join_lines_content in Hnone; [done|].
      eapply Forall_impl; [exact Hall|]. intros c Hc. simpl in Hc.
      by destruct (j_url c).
    + intros [Hname|Hurl].
      * apply sort_by_name_None in Hname. congruence.
      * apply join_lines_content_None. by rewrite <- Hperm.
  - split; [|done]. intros _. left. by apply sort_by_name_None.
Qed.

(** X9: the sort is stable.  Whatever the name, the records of that name
    are in the sorted list in the order they had in the input. *)
Theorem sort_by_name_stable (l sorted : list JoinedChannel) (n : pyval) :
  sort_by_name l = Some sorted ->
  filter (fun c => j_name c = n) sorted = filter (fun c => j_name c = n) l.
Proof.
  revert sorted. induction l as [|x l IH]; intros sorted; simpl.
  - by intros [= <-].
  - destruct (sort_by_name l) as [l'|]; simpl; [|done].
    intros Hins. rewrite (insert_by_name_filter _ _ _ n Hins).
    by rewrite !filter_cons, (IH l' eq_refl).
Qed.

(** X10: rendering sorts once and for all.  Sorting a sorted list
    changes nothing, so rendering the sorted records gives the text that
    rendering the input gave. *)
Theorem render_of_sorted (l sorted : list JoinedChannel) :
  sort_by_name l = Some sorted ->
  sort_by_name sorted = Some sorted
  /\ generate_m3u_file sorted = generate_m3u_file l.
Proof.
  intros Hsort.
  assert (sort_by_name sorted = Some sorted) as Hagain.
  { apply sort_by_name_of_sorted. by eapply sort_by_name_sorted_any. }
  split; [done|]. unfold generate_m3u_file. by rewrite Hsort, Hagain.
Qed.

(** ** More on [fetch_json] and [main] *)

Section MainLaws.
Context {U : UnicodeCase}.

Lemma main_run_fetched (w : World) :
  raises_only_RequestException (reply_channels w) ->
  raises_only_RequestException (reply_streams w) ->
  raises_only_RequestException (reply_logos w) ->
  run (main w) =
    match fetched (reply_channels w), fetched (reply_streams w),
          fetched (reply_logos w) with
    | Some (c :: cs), Some (s :: ss), Some (l :: ls) =>
        let processed := process_data (c :: cs) (s :: ss) (l :: ls) in
        if bool_decide (processed = [])
        then (Returned tt,
              fetching_events w
                ++ [Stdout (u "Datos descargados. Procesando y combinando...");
                    Call process_data_fn;
                    Stdout (u "Error: No se pudo procesar ningún canal con stream válido.")])
        else
          match generate_m3u_file processed with
          | None =>
              (Uncaught TypeError, fetching_events w ++ joining_events processed)
          | Some text =>
              match write_result w with
              | WriteOk =>
                  (Returned tt,
                   fetching_events w ++ joining_events processed
                     ++ [FileOpened OUTPUT_FILE;
                         FileWritten OUTPUT_FILE text;
                         Stdout (u "¡Éxito! Archivo guardado como '"
                                   ++ OUTPUT_FILE ++ u "'");
                         elapsed_line w])
              | OpenRaises e =>
                  if isinstance_IOError (exn_class e)
                  then (Returned tt,
                        fetching_events w ++ joining_events processed
                          ++ [Stdout (u "Error al escribir el archivo: "
                                        ++ exn_text e);
                              elapsed_line w])
                  else (Uncaught (exn_class e),
                        fetching_events w ++ joining_events processed)
              | WriteRaises e =>
                  if isinstance_IOError (exn_class e)
                  then (Returned tt,
                        fetching_events w ++ joining_events processed
                          ++ [FileOpened OUTPUT_FILE;
                              Stdout (u "Error al escribir el archivo: "
                                        ++ exn_text e);
                              elapsed_line w])
                  else (Uncaught (exn_class e),
                        fetching_events w ++ joining_events processed
                          ++ [FileOpened OUTPUT_FILE])
              end
          end
    | _, _, _ =>
        (Returned tt,
         fetching_events w
           ++ [Stdout (u "Error: No se pudieron descargar todos los archivos de la API. Abortando.")])
    end.
Proof.
  intros Hc Hs Hl.
  unfold run, main. run_M.
  rewrite fetch_json_run by exact Hc. cbv beta iota.
  rewrite fetch_json_run by exact Hs. cbv beta iota.
  rewrite fetch_json_run by exact Hl. cbv beta iota.
  unfold fetching_events, starting_lines, joining_events, elapsed_line.
  destruct (fetched (reply_channels w)) as [[|c cs]|],
    (fetched (reply_streams w)) as [[|s ss]|],
    (fetched (reply_logos w)) as [[|l ls]|];
    cbn [all forallb truthy_data negb andb]; cbv beta;
    try (by rewrite <- !app_assoc).
  unfold call_process_data. run_M. cbv zeta.
  destruct (bool_decide _); cbv beta; [by rewrite <- !app_assoc|].
  unfold call_generate_m3u_file. run_M.
  destruct (generate_m3u_file _) as [text|]; cbv beta iota;
    [|by rewrite <- !app_assoc].
  unfold write_output, except_IOError.
  destruct (write_result w) as [|e|e];
    [|destruct (isinstance_IOError _)..];
    run_M; by rewrite <- !app_assoc.
Qed.

Lemma http_gets_fetching (w : World) :
  http_gets (fetching_events w)
  = [API_URLS channels_key; API_URLS streams_key; API_URLS logos_key].
Proof.
  unfold fetching_events, http_gets, fetch_events. rewrite !omap_app.
  by destruct (raised_in_try (reply_channels w)),
    (raised_in_try (reply_streams w)), (raised_in_try (reply_logos w)).
Qed.



Lemma files_written_joining processed tail :
  files_written (joining_events processed ++ tail) = files_written tail.
Proof. reflexivity. Qed.

Lemma http_gets_joining processed tail :
  http_gets (joining_events processed ++ tail) = http_gets tail.
Proof. reflexivity. Qed.

Lemma http_gets_after_fetching w tail :
  http_gets (fetching_events w ++ tail)
  = [API_URLS channels_key; API_URLS streams_key; API_URLS logos_key]
      ++ http_gets tail.
Proof.
  unfold http_gets at 1. rewrite omap_app.
  fold (http_gets (fetching_events w)). fold (http_gets tail).
  by rewrite http_gets_fetching.
Qed.


Lemma process_data_no_streams channels logos :
  process_data channels [] logos = [].
Proof.
  rewrite process_data_omap.
  induction channels as [|channel channels IH]; [done|].
  cbn [omap list_omap]. rewrite IH.
  replace (join_channel (streams_map []) (logos_map logos) channel)
    with (@None JoinedChannel); [done|].
  symmetry. apply join_channel_None. rewrite elem_of_dom.
  unfold streams_map. simpl. rewrite lookup_empty. by intros [? ?].
Qed.

(** X13: the three downloads are always attempted, in the order
    channels, streams, logos, and nothing else is downloaded: a fetch that
    fails does not keep [main] from the next one. *)
Theorem main_gets_all_three (w : World) :
  raises_only_RequestException (reply_channels w) ->
  raises_only_RequestException (reply_streams w) ->
  raises_only_RequestException (reply_logos w) ->
  http_gets (snd (run (main w)))
  = [API_URLS channels_key; API_URLS streams_key; API_URLS logos_key].
Proof.
  intros Hc Hs Hl. rewrite main_run_fetched by done.
  destruct (fetched (reply_channels w)) as [[|c cs]|],
    (fetched (reply_streams w)) as [[|s ss]|],
    (fetched (reply_logos w)) as [[|l ls]|]; cbv zeta;
    try (cbn [snd]; rewrite http_gets_after_fetching; reflexivity).
  destruct (bool_decide _);
    [|destruct (generate_m3u_file _);
      [destruct (write_result w) as [|e|e];
       [|destruct (isinstance_IOError _)..]|]];
    cbn [snd]; rewrite http_gets_after_fetching, ?http_gets_joining;
    reflexivity.
Qed.

(** X14: when the join is reached.  [main] stops before the join, with
    no render and no file, if and only if one of the three fetched values
    is [None] or the empty list. *)
Theorem main_stops_iff_no_data (w : World) :
  raises_only_RequestException (reply_channels w) ->
  raises_only_RequestException (reply_streams w) ->
  raises_only_RequestException (reply_logos w) ->
  aborted_before_join (snd (run (main w)))
  <-> (fetched (reply_channels w) = None \/ fetched (reply_channels w) = Some [])
      \/ (fetched (reply_streams w) = None \/ fetched (reply_streams w) = Some [])
      \/ (fetched (reply_logos w) = None \/ fetched (reply_logos w) = Some []).
Proof.
  intros Hc Hs Hl. rewrite main_aborts_before_join_iff by done.
  destruct (fetched (reply_channels w)) as [[|c cs]|],
    (fetched (reply_streams w)) as [[|s ss]|],
    (fetched (reply_logos w)) as [[|l ls]|];
    cbn [all forallb truthy_data andb];
    (split; [intros ?|intros [[?|?]|[[?|?]|[?|?]]]]); by auto.
Qed.



End MainLaws.

(** ** The join and the renderer together *)

Section JoinRender.
Context {U : UnicodeCase}.

Lemma join_output_str_fields channels streams logos :
  Forall (fun channel => c_name channel <> Some None) channels ->
  Forall str_fields (process_data channels streams logos).
Proof.
  intros Hnames. apply Forall_forall. intros joined.
  intros (channel & Hin & Hjoin)%elem_of_process_data.
  rewrite Forall_forall in Hnames. specialize (Hnames channel Hin).
  apply join_channel_Some_inv
    in Hjoin as (id & url & logo & _ & _ & _ & _ & _ & ->).
  split; simpl; [|by eauto].
  destruct (c_name channel) as [[name|]|]; simpl; by eauto.
Qed.

(** X11: the renderer accepts what the join gives.  When no channel
    entry has null as ['name'], rendering the join output raises nothing:
    it returns a text, the header followed by the two lines of each record
    of the join output, sorted by name. *)
Theorem render_of_join (channels : list Channel) (streams : list Stream)
    (logos : list Logo) :
  Forall (fun channel => c_name channel <> Some None) channels ->
  exists sorted,
    Permutation (process_data channels streams logos) sorted
    /\ StronglySorted name_le sorted
    /\ generate_m3u_file (process_data channels streams logos)
       = Some (str_join [LF] (EXTM3U :: flat_map entry_lines sorted)).
Proof.
  intros Hnames.
  destruct (generate_m3u_file_sorted (process_data channels streams logos))
    as (sorted & _ & Hperm & Hsorted & Htext).
  { by apply join_output_str_fields. }
  by exists sorted.
Qed.

(** X12: the group title of a channel whose first category is ASCII is
    that category with its first character in upper case and all the
    others in lower case; the categories after the first play no part. *)
Theorem group_of_ascii_category {HU : UnicodeCaseAscii U}
    (sm lm : gmap pyval pyval) (channel : Channel) (joined : JoinedChannel)
    (first : pystr) (others : list pystr) :
  c_categories channel = Some (Some (first :: others)) ->
  Forall (fun c => c < 128) first ->
  join_channel sm lm channel = Some joined ->
  j_group joined = ascii_capitalize first.
Proof.
  intros Hcat Hascii. unfold join_channel.
  destruct (negb _); [done|]. intros [= <-]. simpl.
  rewrite Hcat. simpl. by apply capitalize_ascii.
Qed.
End JoinRender.

Lemma render_of_join_witness :
  exists sorted,
    Permutation (@process_data ascii_case twice_c1 stream_c1 []) sorted
    /\ StronglySorted name_le sorted
    /\ generate_m3u_file (@process_data ascii_case twice_c1 stream_c1 [])
       = Some (str_join [LF] (EXTM3U :: flat_map entry_lines sorted)).
Proof.
  apply (@render_of_join ascii_case twice_c1 stream_c1 []).
  repeat constructor; discriminate.
Defined.

Lemma group_of_ascii_category_witness :
  j_group {| j_id := Some (u "c1"); j_name := Some (u "Beta");
             j_logo := Some []; j_group := u "News";
             j_url := Some (u "http://a") |}
  = ascii_capitalize (u "NEWS").
Proof.
  apply (@group_of_ascii_category ascii_case ascii_case_ascii
           (streams_map stream_c1) (logos_map [])
           (channel_of (u "c1") (u "Beta") [u "NEWS"; u "sports"])
           _ (u "NEWS") [u "sports"]).
  - reflexivity.
  - repeat constructor.
  - vm_compute. reflexivity.
Defined.

Lemma joined_fields_are_strings_witness :
  (exists id, Some (u "c1") = Some id /\ id <> [])
  /\ (exists url, Some (u "http://a") = Some url /\ url <> [])
  /\ (exists logo : pystr, Some [] = Some logo).
Proof.
  apply (@joined_fields_are_strings ascii_case [empty_name_c1] stream_c1 []
           {| j_id := Some (u "c1"); j_name := Some []; j_logo := Some [];
              j_group := u "Sin categoría"; j_url := Some (u "http://a") |}).
  vm_compute. left.
Defined.

Lemma joined_url_and_logo_witness :
  exists id,
    Some (u "c1") = Some id
    /\ first_url (fun s => get (s_channel s)) (fun s => get (s_url s)) id
         stream_c1
       = Some (Some (u "http://a"))
    /\ Some []
       = default (Some [])
           (first_url (fun l => get (l_channel l)) (fun l => get (l_url l))
              id ([] : list Logo)).
Proof.
  apply (@joined_url_and_logo ascii_case [empty_name_c1] stream_c1 []
           {| j_id := Some (u "c1"); j_name := Some []; j_logo := Some [];
              j_group := u "Sin categoría"; j_url := Some (u "http://a") |}).
  vm_compute. left.
Defined.

Lemma channel_without_stream_is_dropped_witness :
  join_channel (U := ascii_case) (streams_map stream_c1) (logos_map [])
    (channel_of (u "c2") (u "Dos") []) = None
  /\ @process_data ascii_case
       ([empty_name_c1] ++ channel_of (u "c2") (u "Dos") [] :: [])
       stream_c1 []
     = @process_data ascii_case ([empty_name_c1] ++ []) stream_c1 [].
Proof.
  apply (@channel_without_stream_is_dropped ascii_case [empty_name_c1] []
           (channel_of (u "c2") (u "Dos") []) stream_c1 []).
  constructor; [left; vm_compute; discriminate|constructor].
Defined.

Lemma sort_by_name_stable_witness :
  filter (fun c => j_name c = Some (u "Alpha"))
         (same_name_pair ++ [joined_of (u "c3") (u "Beta") (u "http://c")])
  = filter (fun c => j_name c = Some (u "Alpha"))
           (joined_of (u "c3") (u "Beta") (u "http://c") :: same_name_pair).
Proof.
  apply (sort_by_name_stable
           (joined_of (u "c3") (u "Beta") (u "http://c") :: same_name_pair)
           (same_name_pair ++ [joined_of (u "c3") (u "Beta") (u "http://c")])
           (Some (u "Alpha"))).
  vm_compute. reflexivity.
Defined.

Lemma render_of_sorted_witness :
  sort_by_name (reverse alpha_beta) = Some (reverse alpha_beta)
  /\ generate_m3u_file (reverse alpha_beta) = generate_m3u_file alpha_beta.
Proof.
  apply (render_of_sorted alpha_beta (reverse alpha_beta)).
  vm_compute. reflexivity.
Defined.

(** ** Exceptions that are not caught *)

(** X16: what [fetch_json] lets through.  An exception leaves
    [fetch_json] if and only if one of the three library calls raised an
    exception that is not a [RequestException]; it is that exception, and
    by then the GET was issued and nothing was printed. *)
Theorem fetch_json_raises_iff {A} (url : pystr) (reply : http_reply A)
    (t : list event) (k : exn_kind) :
  (fst (fetch_json url reply t) = Uncaught k
   <-> exists e, raised_in_try reply = Some e
         /\ isinstance_RequestException (exn_class e) = false
         /\ exn_class e = k)
  /\ (fst (fetch_json url reply t) = Uncaught k ->
      snd (fetch_json url reply t) = t ++ [HttpGet url]).
Proof.
  destruct (raised_in_try reply) as [e|] eqn:Hraised.
  - destruct (isinstance_RequestException (exn_class e)) eqn:Hclass.
    + rewrite fetch_json_run by (intros e' He'; congruence).
      split; [|done]. split; [done|].
      intros (e' & [= <-] & He' & _). congruence.
    + rewrite (fetch_json_propagates url reply e t Hraised Hclass).
      split; [|done]. split.
      * intros [= <-]. by exists e.
      * by intros (e' & [= <-] & _ & <-).
  - rewrite fetch_json_run by (intros e' He'; congruence).
    split; [|done]. split; [done|]. by intros (e' & [=] & _).
Qed.

Section MainExceptions.
Context {U : UnicodeCase}.


(** X18: an exception of the first download that is not a
    [RequestException] ends the run there: the streams and the logos are
    not requested and nothing more is printed. *)
Theorem main_ends_at_first_fetch (w : World) (e : PyExn) :
  raised_in_try (reply_channels w) = Some e ->
  isinstance_RequestException (exn_class e) = false ->
  run (main w)
  = (Uncaught (exn_class e),
     starting_lines ++ [HttpGet (API_URLS channels_key)]).
Proof.
  intros Hraised Hclass. unfold run, main. run_M.
  by rewrite (fetch_json_propagates _ _ e _ Hraised Hclass).
Qed.

(** X19: the elapsed time.  The line with the elapsed time is the last
    event of a run if and only if the run got to the file write, the three
    downloads having given non-empty data, the join a record and the
    renderer a text, and the write either succeeded or failed with an
    [IOError]: a failed write is followed by that line too. *)
Theorem elapsed_line_ends_the_run (w : World) :
  raises_only_RequestException (reply_channels w) ->
  raises_only_RequestException (reply_streams w) ->
  raises_only_RequestException (reply_logos w) ->
  last (snd (run (main w))) = Some (elapsed_line w)
  <-> exists channels streams logos text,
        fetched (reply_channels w) = Some channels
        /\ fetched (reply_streams w) = Some streams
        /\ fetched (reply_logos w) = Some logos
        /\ logos <> []
        /\ process_data channels streams logos <> []
        /\ generate_m3u_file (process_data channels streams logos) = Some text
        /\ (write_raises w = None
            \/ exists e, write_raises w = Some e
                 /\ isinstance_IOError (exn_class e) = true).
Proof.
  intros Hc Hs Hl. rewrite main_run_fetched by done.
  assert (forall line : string,
            bool_decide (head (u line) = Some 69) = true ->
            Some (Stdout (u line)) <> Some (elapsed_line w)) as Hother.
  { intros line Hhead%bool_decide_eq_true_1 [= Heq].
    rewrite Heq in Hhead. vm_compute in Hhead. discriminate Hhead. }
  destruct (fetched (reply_channels w)) as [[|c cs]|],
    (fetched (reply_streams w)) as [[|s ss]|],
    (fetched (reply_logos w)) as [[|l ls]|]; cbv zeta;
    try (cbn [snd]; rewrite last_snoc; split; [by intros ?%Hother|];
         intros (? & ? & ? & ? & ? & ? & ? & ? & ? & _);
         simplify_eq; try done;
         by rewrite ?process_data_no_streams in * ).
  case_bool_decide as Hempty.
  { cbn [snd]. rewrite last_app. cbn [last]. split; [by intros ?%Hother|].
    intros (? & ? & ? & ? & ? & ? & ? & ? & ? & _). by simplify_eq. }
  destruct (generate_m3u_file _) as [text|] eqn:Hgen.
  2: { cbn [snd]. rewrite last_app.
       change (last (joining_events _))
         with (Some (Call generate_m3u_file_fn)).
       split; [done|].
       intros (? & ? & ? & ? & ? & ? & ? & ? & ? & ? & _).
       simplify_eq; congruence. }
  unfold write_raises.
  destruct (write_result w) as [|e|e] eqn:Hwrite;
    [|destruct (isinstance_IOError (exn_class e)) eqn:Hio..];
    cbn [snd]; rewrite !last_app; cbn [last].
  - split; [intros _|done].
    exists (c :: cs), (s :: ss), (l :: ls), text. split_and!; try done.
    by left.
  - split; [intros _|done].
    exists (c :: cs), (s :: ss), (l :: ls), text. split_and!; try done.
    right. by exists e.
  - change (last (joining_events _))
      with (Some (Call generate_m3u_file_fn)).
    split; [done|].
    intros (? & ? & ? & ? & _ & _ & _ & _ & _ & _ & [?|(e' & ? & ?)]);
      simplify_eq; congruence.
  - split; [intros _|done].
    exists (c :: cs), (s :: ss), (l :: ls), text. split_and!; try done.
    right. by exists e.
  - split; [done|].
    intros (? & ? & ? & ? & _ & _ & _ & _ & _ & _ & [?|(e' & ? & ?)]);
      simplify_eq; congruence.
Qed.
End MainExceptions.

Lemma main_gets_all_three_witness :
  http_gets (snd (run (@main ascii_case no_match_world)))
  = [API_URLS channels_key; API_URLS streams_key; API_URLS logos_key].
Proof.
  apply (@main_gets_all_three ascii_case no_match_world);
    intros e He; discriminate He.
Defined.

Lemma main_stops_iff_no_data_witness :
  aborted_before_join (snd (run (@main ascii_case empty_logos_world)))
  <-> (fetched (reply_channels empty_logos_world) = None
       \/ fetched (reply_channels empty_logos_world) = Some [])
      \/ (fetched (reply_streams empty_logos_world) = None
          \/ fetched (reply_streams empty_logos_world) = Some [])
      \/ (fetched (reply_logos empty_logos_world) = None
          \/ fetched (reply_logos empty_logos_world) = Some []).
Proof.
  apply (@main_stops_iff_no_data ascii_case empty_logos_world);
    intros e He; discriminate He.
Defined.



Lemma main_ends_at_first_fetch_witness :
  run (@main ascii_case interrupted_world)
  = (Uncaught OtherError, starting_lines ++ [HttpGet (API_URLS channels_key)]).
Proof.
  apply (@main_ends_at_first_fetch ascii_case interrupted_world
           {| exn_class := OtherError; exn_text := u "KeyboardInterrupt" |});
    reflexivity.
Defined.

Lemma elapsed_line_ends_the_run_witness :
  last (snd (run (@main ascii_case disk_full_world)))
    = Some (elapsed_line disk_full_world)
  <-> exists channels streams logos text,
        fetched (reply_channels disk_full_world) = Some channels
        /\ fetched (reply_streams disk_full_world) = Some streams
        /\ fetched (reply_logos disk_full_world) = Some logos
        /\ logos <> []
        /\ @process_data ascii_case channels streams logos <> []
        /\ generate_m3u_file (@process_data ascii_case channels streams logos)
           = Some text
        /\ (write_raises disk_full_world = None
            \/ exists e, write_raises disk_full_world = Some e
                 /\ isinstance_IOError (exn_class e) = true).
Proof.
  apply (@elapsed_line_ends_the_run ascii_case disk_full_world);
    intros e He; discriminate He.
Defined.
